(** * lib/mongodb.ts: the cached Mongoose connection

    A shallow embedding of [src/lib/mongodb.ts].  The file has two parts:
    the module body (lines 16-32), evaluated once per import, and the async
    function [connectDB] (lines 41-69).  [connectDB] has one suspension
    point, the [await] of line 61, so it is embedded as two functions: the
    synchronous prefix up to the [await] ([connectDB_call]) and the
    continuation that runs once the awaited promise is settled
    ([connectDB_resume]).

    The cache is a mutable object reached through references (the module
    binding [cached] and the slot [global.mongoose]), so cache objects live
    in a heap and are named by their address.  The process is a state
    ([World]) moved by events ([step]): a module evaluation, a call of
    [connectDB], the driver settling one of its promises, the continuation
    of a suspended activation.  Events are atomic, as jobs of the
    JavaScript event loop are; which event comes next is left open, so a
    statement about every run covers every schedule of the job queue. *)

From Stdlib Require Import String.
From stdpp Require Import base option list strings.

(** ** Data *)

(** The object a connect promise resolves to ([typeof mongoose]); a number
    stands for its identity.  [null] is [None] at type [option Handle]. *)
Definition Handle := nat.

(** The value a rejected promise carries. *)
Definition Error := string.

(** Address of a [MongooseCache] object in the heap. *)
Abbreviation loc := nat (only parsing).

(** A promise stored in [cached.promise]: the promise made by the [p]-th
    invocation of [mongoose.connect], chained through [.then]. *)
Abbreviation PromiseId := nat (only parsing).

(** [interface MongooseCache] (lines 4-7). *)
Record MongooseCache := mkCache {
  conn : option Handle;
  promise : option PromiseId
}.

(** The options literal of lines 49-51. *)
Record ConnectOptions := mkOptions { bufferCommands : bool }.

Inductive PromiseState :=
| Pending
| Fulfilled (v : Handle)
| Rejected (e : Error).

(** One invocation of [mongoose.connect]: its two arguments and the state
    of the promise it returned. *)
Record ConnectCall := mkConnect {
  call_uri : string;
  call_options : ConnectOptions;
  call_state : PromiseState
}.

(** How the promise returned by [connectDB] was settled. *)
Inductive Outcome :=
| Resolved (v : option Handle)
| Threw (e : Error).

(** An activation of [connectDB] suspended at the [await] of line 61: who
    called, the cache object its [cached] binding refers to, and the value
    [cached.promise] had when the [await] was evaluated. *)
Record Task := mkTask {
  task_caller : nat;
  task_cached : loc;
  task_awaits : option PromiseId
}.

(** One evaluation of the module body: its two top-level bindings. *)
Record Module := mkModule {
  MONGODB_URI : string;
  cached : loc
}.

(** The process: the heap of cache objects, the slot [global.mongoose],
    the driver with the log of its [connect] invocations, the suspended
    activations, the settled results, the evaluated module instances and
    the number of [connectDB] calls issued so far. *)
Record World := mkWorld {
  heap : list MongooseCache;
  global_mongoose : option loc;
  driver : list ConnectCall;
  tasks : list Task;
  returned : list (nat * Outcome);
  modules : list Module;
  issued : nat
}.

Definition World0 : World := mkWorld [] None [] [] [] [] 0.

(** ** Field updates *)

Definition set_heap (h : list MongooseCache) (w : World) : World :=
  mkWorld h (global_mongoose w) (driver w) (tasks w) (returned w) (modules w) (issued w).

Definition set_global (g : option loc) (w : World) : World :=
  mkWorld (heap w) g (driver w) (tasks w) (returned w) (modules w) (issued w).

Definition set_driver (d : list ConnectCall) (w : World) : World :=
  mkWorld (heap w) (global_mongoose w) d (tasks w) (returned w) (modules w) (issued w).

Definition set_tasks (ts : list Task) (w : World) : World :=
  mkWorld (heap w) (global_mongoose w) (driver w) ts (returned w) (modules w) (issued w).

Definition add_returned (r : nat * Outcome) (w : World) : World :=
  mkWorld (heap w) (global_mongoose w) (driver w) (tasks w) (returned w ++ [r]) (modules w) (issued w).

Definition add_module (m : Module) (w : World) : World :=
  mkWorld (heap w) (global_mongoose w) (driver w) (tasks w) (returned w) (modules w ++ [m]) (issued w).

Definition next_caller (w : World) : World :=
  mkWorld (heap w) (global_mongoose w) (driver w) (tasks w) (returned w) (modules w) (S (issued w)).

(** [cached.conn = v] and [cached.promise = x] on the object at [l]. *)
Definition set_conn (l : loc) (v : option Handle) (w : World) : World :=
  set_heap (alter (fun c => mkCache v (promise c)) l (heap w)) w.

Definition set_promise (l : loc) (x : option PromiseId) (w : World) : World :=
  set_heap (alter (fun c => mkCache (conn c) x) l (heap w)) w.

(** The object literal [{ conn: null, promise: null }]: a new object. *)
Definition alloc_cache (c : MongooseCache) (w : World) : loc * World :=
  (length (heap w), set_heap (heap w ++ [c]) w).

(** ** The driver and its promises *)

(** [mongoose.connect(uri, options)]: logs the invocation and hands back a
    pending promise. *)
Definition mongoose_connect (uri : string) (options : ConnectOptions) (w : World)
  : PromiseId * World :=
  (length (driver w), set_driver (driver w ++ [mkConnect uri options Pending]) w).

(** [.then(cb)] with a fulfilment callback only: a fulfilled value goes
    through [cb], a rejection passes through untouched. *)
Definition promise_then (cb : Handle -> Handle) (s : PromiseState) : PromiseState :=
  match s with
  | Pending => Pending
  | Fulfilled v => Fulfilled (cb v)
  | Rejected e => Rejected e
  end.

(** State of the promise stored by line 54:
    [mongoose.connect(...).then((mongooseInstance) => mongooseInstance)]. *)
Definition promise_state (w : World) (p : PromiseId) : option PromiseState :=
  match driver w !! p with
  | Some k => Some (promise_then (fun mongooseInstance => mongooseInstance) (call_state k))
  | None => None
  end.

(** What [await x] delivers once the continuation can run: a value, or an
    exception to throw.  [None] while the promise is pending.  Awaiting
    [null] yields [null]. *)
Definition await_result (w : World) (x : option PromiseId)
  : option (option Handle + Error) :=
  match x with
  | None => Some (inl None)
  | Some p =>
      match promise_state w p with
      | Some (Fulfilled v) => Some (inl (Some v))
      | Some (Rejected e) => Some (inr e)
      | _ => None
      end
  end.

(** The driver settles the promise of its [p]-th [connect]; only a pending
    promise can be settled. *)
Definition driver_settle (p : PromiseId) (r : Handle + Error) (w : World) : option World :=
  match driver w !! p with
  | Some (mkConnect uri options Pending) =>
      let s := match r with inl v => Fulfilled v | inr e => Rejected e end in
      Some (set_driver (<[p := mkConnect uri options s]> (driver w)) w)
  | _ => None
  end.

(** ** The module body, lines 16-32 *)

Definition missing_uri_message : Error :=
  "Please define the MONGODB_URI environment variable inside .env.local"%string.

(** [env] is [process.env.MONGODB_URI]: [None] is [undefined].  The guard
    [!MONGODB_URI] of line 19 holds for [undefined] and for the empty
    string.  [global.mongoose || {...}] builds the literal only when the
    slot is empty. *)
Definition module_init (env : option string) (w : World) : Error + Module * World :=
  match env with
  | None => inl missing_uri_message
  | Some ""%string => inl missing_uri_message
  | Some uri =>
      let '(l, w1) :=
        match global_mongoose w with
        | Some l => (l, w)
        | None => alloc_cache (mkCache None None) w
        end in
      let w2 :=
        match global_mongoose w1 with
        | None => set_global (Some l) w1
        | Some _ => w1
        end in
      inr (mkModule uri l, w2)
  end.

(** ** connectDB, lines 41-69 *)

(** Where the synchronous prefix stops: at the [return] of line 44, or at
    the [await] of line 61 with the value of [cached.promise] read there. *)
Inductive Suspend :=
| Return (v : option Handle)
| Await (x : option PromiseId).

(** Lines 43-61, up to the [await]. *)
Definition connectDB_call (m : Module) (w : World) : option (Suspend * World) :=
  c ← heap w !! cached m;
  match conn c with
  | Some _ => Some (Return (conn c), w)
  | None =>
      let w1 :=
        match promise c with
        | None =>
            let options := mkOptions false in
            let '(p, w') := mongoose_connect (MONGODB_URI m) options w in
            set_promise (cached m) (Some p) w'
        | Some _ => w
        end in
      c1 ← heap w1 !! cached m;
      Some (Await (promise c1), w1)
  end.

(** Lines 61-68, from the [await] on: [r] is what the [await] delivers. *)
Definition connectDB_resume (l : loc) (r : option Handle + Error) (w : World)
  : option (Outcome * World) :=
  match r with
  | inl v =>
      let w1 := set_conn l v w in
      c ← heap w1 !! l;
      Some (Resolved (conn c), w1)
  | inr error =>
      let w1 := set_promise l None w in
      Some (Threw error, w1)
  end.

(** ** The event loop *)

(** [Import env]: the module body is evaluated with
    [process.env.MONGODB_URI = env]; on success a module instance is added.
    [Call j]: [connectDB] of the [j]-th instance is called and runs up to
    its [return] or its [await].  [Settle p r]: the driver fulfils or
    rejects its [p]-th connect.  [Resume i]: the [i]-th suspended
    activation continues after its [await]; enabled once the awaited
    promise is settled. *)
Inductive Event :=
| Import (env : option string)
| Call (j : nat)
| Settle (p : PromiseId) (r : Handle + Error)
| Resume (i : nat).

Definition step (ev : Event) (w : World) : option World :=
  match ev with
  | Import env =>
      match module_init env w with
      | inl _ => Some w
      | inr (m, w1) => Some (add_module m w1)
      end
  | Call j =>
      m ← modules w !! j;
      '(s, w1) ← connectDB_call m w;
      let w2 := next_caller w1 in
      match s with
      | Return v => Some (add_returned (issued w, Resolved v) w2)
      | Await x => Some (set_tasks (tasks w2 ++ [mkTask (issued w) (cached m) x]) w2)
      end
  | Settle p r => driver_settle p r w
  | Resume i =>
      t ← tasks w !! i;
      r ← await_result w (task_awaits t);
      '(o, w1) ← connectDB_resume (task_cached t) r w;
      Some (add_returned (task_caller t, o) (set_tasks (delete i (tasks w1)) w1))
  end.

Fixpoint run (evs : list Event) (w : World) : option World :=
  match evs with
  | [] => Some w
  | ev :: evs' => w1 ← step ev w; run evs' w1
  end.

Definition reachable (w : World) : Prop := ∃ evs, run evs World0 = Some w.

(** ** Reading the cache *)

Definition conn_at (w : World) (l : loc) : option (option Handle) :=
  conn <$> heap w !! l.

Definition promise_at (w : World) (l : loc) : option (option PromiseId) :=
  promise <$> heap w !! l.

(** The cache object an event works on: the one bound to [cached] in the
    module whose [connectDB] is called or resumed. *)
Definition event_cache (w : World) (ev : Event) : option loc :=
  match ev with
  | Call j => cached <$> modules w !! j
  | Resume i => task_cached <$> tasks w !! i
  | _ => None
  end.

(** The events of a window in which no activation of [connectDB] is
    resumed: only new calls and activity of the driver. *)
Definition in_window (ev : Event) : bool :=
  match ev with
  | Call _ | Settle _ _ => true
  | _ => false
  end.

Definition is_call (ev : Event) : bool :=
  match ev with
  | Call _ => true
  | _ => false
  end.

(** ** Well-formed worlds *)

(** What every reachable world satisfies: references point into the heap,
    every module instance is bound to the object in [global.mongoose] and
    read a non-empty URI, every suspended activation awaits a promise of
    the driver, and every logged [connect] was made by a loaded instance
    with buffering disabled. *)
Record wf (w : World) : Prop := mk_wf {
  wf_global : ∀ l, global_mongoose w = Some l → l < length (heap w);
  wf_modules : ∀ m, m ∈ modules w →
    global_mongoose w = Some (cached m) ∧ MONGODB_URI m ≠ ""%string;
  wf_tasks : ∀ t, t ∈ tasks w →
    task_cached t < length (heap w) ∧
    ∃ p, task_awaits t = Some p ∧ p < length (driver w);
  wf_heap : ∀ c p, c ∈ heap w → promise c = Some p → p < length (driver w);
  wf_driver : ∀ k, k ∈ driver w →
    call_options k = mkOptions false ∧
    ∃ m, m ∈ modules w ∧ call_uri k = MONGODB_URI m
}.

(** ** Vocabulary of the statements *)

(** The world right after a call that found the cache empty: the driver
    has been asked to connect and the promise is stored in the cache. *)
Definition start_attempt (m : Module) (w : World) : World :=
  set_promise (cached m) (Some (length (driver w)))
    (set_driver (driver w ++ [mkConnect (MONGODB_URI m) (mkOptions false) Pending]) w).

(** Number of [connectDB] calls among the events. *)
Definition calls (evs : list Event) : nat := length (List.filter is_call evs).

(** Number of invocations of [mongoose.connect] so far. *)
Definition connect_count (w : World) : nat := length (driver w).

(** The activation suspended on promise [p] of the cache at [l]. *)
Definition waits_on (l : loc) (p : PromiseId) (t : Task) : Prop :=
  task_cached t = l ∧ task_awaits t = Some p.

(** The effect of an event on the cache object at [l], whose content
    before the event is [c]. *)
Definition cache_effect (ev : Event) (w : World) (l : loc) (c c' : MongooseCache) : Prop :=
  match ev with
  | Import _ | Settle _ _ => c' = c
  | Call j =>
      c' = c ∨
      (event_cache w ev = Some l ∧ c = mkCache None None ∧
       c' = mkCache None (Some (connect_count w)))
  | Resume i =>
      (event_cache w ev ≠ Some l ∧ c' = c) ∨
      (event_cache w ev = Some l ∧
       ∃ t r, tasks w !! i = Some t ∧ await_result w (task_awaits t) = Some r ∧
         c' = match r with
              | inl v => mkCache v (promise c)
              | inr _ => mkCache (conn c) None
              end)
  end.

(** The continuation after a rejected [await]: the only place that writes
    null into [cached.promise]. *)
Definition failure_path (ev : Event) (w : World) (l : loc) : Prop :=
  ∃ i t e, ev = Resume i ∧ tasks w !! i = Some t ∧ task_cached t = l ∧
    await_result w (task_awaits t) = Some (inr e).

(** ** Sample worlds *)

Definition demo_uri : string := "mongodb://localhost:27017/techhub".

(** The process after one evaluation of the module with [demo_uri]. *)
Definition world_loaded : World :=
  mkWorld [mkCache None None] (Some 0) [] [] [] [mkModule demo_uri 0] 0.

Definition replica_uri : string := "mongodb://replica:27017/techhub".

(** The process after a second evaluation, with another URI in the
    environment: two module instances, one cache object. *)
Definition world_reloaded : World :=
  mkWorld [mkCache None None] (Some 0) [] [] []
    [mkModule demo_uri 0; mkModule replica_uri 0] 0.

(** A world in which the first attempt has been rejected and its only
    waiter has not been resumed yet. *)
Definition world_rejected : World :=
  mkWorld [mkCache None (Some 0)] (Some 0)
    [mkConnect demo_uri (mkOptions false) (Rejected "ECONNREFUSED")]
    [mkTask 0 0 (Some 0)] [] [mkModule demo_uri 0] 1.

(** The process with [n] callers suspended on the first attempt, whose
    promise is in state [s]. *)
Definition world_waiting (n : nat) (s : PromiseState) : World :=
  mkWorld [mkCache None (Some 0)] (Some 0) [mkConnect demo_uri (mkOptions false) s]
    ((λ k, mkTask k 0 (Some 0)) <$> seq 0 n) [] [mkModule demo_uri 0] n.

(** A run in which caller B joins a connect promise that is already
    rejected while A, the first waiter of that promise, has not yet run its
    [catch].  In terms of the job queue: the rejection queues the
    continuation of A; then a job that will call [connectDB] for C is
    queued; then B calls and, its promise being rejected already, the
    continuation of B is queued at once.  The queue runs them in this
    order: A, the call of C, B. *)
Definition stale_waiter_calls : list Event :=
  [ Import (Some demo_uri);
    Call 0;                          (* A: first attempt, promise 0 *)
    Settle 0 (inr "ECONNREFUSED"%string);
    Call 0;                          (* B joins the rejected promise 0 *)
    Resume 0;                        (* A: catch, cached.promise = null *)
    Call 0;                          (* C: second attempt, promise 1 *)
    Resume 0;                        (* B: catch, drops promise 1 *)
    Call 0 ].                        (* D: third attempt, promise 2 *)

(** Both attempts succeed, one after the other, and a last call follows. *)
Definition stale_waiter_settles : list Event :=
  [ Settle 1 (inl 7);
    Resume 0;                        (* C: cached.conn = handle 7 *)
    Settle 2 (inl 8);
    Resume 0;                        (* D: cached.conn = handle 8 *)
    Call 0 ].

(** The driver resolves its connects with handle [h] only: in the log so
    far, and in an event. *)
Definition resolves_with (h : Handle) (w : World) : Prop :=
  ∀ k v, k ∈ driver w → call_state k = Fulfilled v → v = h.

Definition settles_with (h : Handle) (ev : Event) : Prop :=
  ∀ p v, ev = Settle p (inl v) → v = h.

(** ** Vocabulary of the further properties *)

(** Events in which the driver rejects nothing. *)
Definition no_reject (ev : Event) : bool :=
  match ev with
  | Settle _ (inr _) => false
  | _ => true
  end.

(** The arguments of the invocations of [mongoose.connect], in order. *)
Definition connect_log (w : World) : list (string * ConnectOptions) :=
  (λ k, (call_uri k, call_options k)) <$> driver w.

(** An outcome of [connectDB] that repeats what the driver delivered: the
    error of a rejected connect, or the handle of a fulfilled one. *)
Definition from_driver (w : World) (o : Outcome) : Prop :=
  match o with
  | Threw e => ∃ k, k ∈ driver w ∧ call_state k = Rejected e
  | Resolved v => ∃ h, v = Some h ∧ ∃ k, k ∈ driver w ∧ call_state k = Fulfilled h
  end.

(** The process with a handle cached by the first attempt. *)
Definition world_connected : World :=
  mkWorld [mkCache (Some 7) (Some 0)] (Some 0)
    [mkConnect demo_uri (mkOptions false) (Fulfilled 7)]
    [] [(0, Resolved (Some 7))] [mkModule demo_uri 0] 1.

(** The first attempt is rejected and one of its waiters has not run its
    [catch] yet, while a second attempt is pending and held by the cache. *)
Definition world_stale : World :=
  mkWorld [mkCache None (Some 1)] (Some 0)
    [mkConnect demo_uri (mkOptions false) (Rejected "ECONNREFUSED");
     mkConnect demo_uri (mkOptions false) Pending]
    [mkTask 1 0 (Some 0); mkTask 2 0 (Some 1)]
    [(0, Threw "ECONNREFUSED"%string)] [mkModule demo_uri 0] 3.

(** Two module instances and three callers served by one attempt. *)
Definition shared_run : list Event :=
  [ Import (Some demo_uri); Call 0; Import (Some replica_uri); Call 1;
    Settle 0 (inl 7); Resume 1; Resume 0; Call 1 ].

Definition world_shared : World :=
  mkWorld [mkCache (Some 7) (Some 0)] (Some 0)
    [mkConnect demo_uri (mkOptions false) (Fulfilled 7)] []
    [(1, Resolved (Some 7)); (0, Resolved (Some 7)); (2, Resolved (Some 7))]
    [mkModule demo_uri 0; mkModule replica_uri 0] 3.

(** The stale waiter, step by step.  [stale_prefix] leaves the cache
    empty, with caller B still suspended on the rejected first attempt;
    in [stale_window] two callers arrive and neither is resumed, while the
    [catch] of B runs between them. *)
Definition stale_prefix : list Event := take 5 stale_waiter_calls.

Definition stale_window : list Event := drop 5 stale_waiter_calls.

(** After the stale waiter: the second attempt has resolved and its
    handle is cached while the third attempt is still pending. *)
Definition world_two_attempts : World :=
  mkWorld [mkCache (Some 7) (Some 2)] (Some 0)
    [mkConnect demo_uri (mkOptions false) (Rejected "ECONNREFUSED");
     mkConnect demo_uri (mkOptions false) (Fulfilled 7);
     mkConnect demo_uri (mkOptions false) Pending]
    [mkTask 3 0 (Some 2)]
    [(0, Threw "ECONNREFUSED"%string); (1, Threw "ECONNREFUSED"%string);
     (2, Resolved (Some 7))]
    [mkModule demo_uri 0] 4.

(** * Lemmas *)

(** One more event of a run: name the world it leads to. *)
Ltac run_next H w1 E :=
  match type of H with
  | context [step ?ev ?w] =>
      destruct (step ev w) as [w1|] eqn:E; [|discriminate H]; simpl in H
  end.

(** ** Equations of the two halves of connectDB *)

Lemma lookup_set_conn (w : World) (l l' : loc) (v : option Handle) :
  heap (set_conn l v w) !! l' =
  if decide (l = l') then (λ c, mkCache v (promise c)) <$> heap w !! l'
  else heap w !! l'.
Proof.
  unfold set_conn; simpl. case_decide as E.
  - subst. apply list_lookup_alter_eq.
  - by apply list_lookup_alter_ne.
Qed.

Lemma lookup_set_promise (w : World) (l l' : loc) (x : option PromiseId) :
  heap (set_promise l x w) !! l' =
  if decide (l = l') then (λ c, mkCache (conn c) x) <$> heap w !! l'
  else heap w !! l'.
Proof.
  unfold set_promise; simpl. case_decide as E.
  - subst. apply list_lookup_alter_eq.
  - by apply list_lookup_alter_ne.
Qed.

Lemma call_connected (m : Module) (w : World) (c : MongooseCache) (h : Handle) :
  heap w !! cached m = Some c → conn c = Some h →
  connectDB_call m w = Some (Return (Some h), w).
Proof. intros Hc Hh. unfold connectDB_call. rewrite Hc; simpl. by rewrite Hh. Qed.

Lemma call_pending (m : Module) (w : World) (c : MongooseCache) (p : PromiseId) :
  heap w !! cached m = Some c → conn c = None → promise c = Some p →
  connectDB_call m w = Some (Await (Some p), w).
Proof.
  intros Hc Hn Hp. unfold connectDB_call. rewrite Hc; simpl.
  rewrite Hn, Hp, Hc; simpl. by rewrite Hp.
Qed.

Lemma call_fresh (m : Module) (w : World) (c : MongooseCache) :
  heap w !! cached m = Some c → conn c = None → promise c = None →
  connectDB_call m w = Some (Await (Some (length (driver w))), start_attempt m w).
Proof.
  intros Hc Hn Hp. unfold connectDB_call. rewrite Hc; simpl.
  rewrite Hn, Hp. unfold mongoose_connect, start_attempt.
  rewrite lookup_set_promise, decide_True by done.
  simpl. by rewrite Hc.
Qed.

(** The three cases are exhaustive: on a live cache the prefix always
    reaches the [return] or the [await]. *)
Lemma call_cases (m : Module) (w : World) (s : Suspend) (w' : World) :
  connectDB_call m w = Some (s, w') →
  ∃ c, heap w !! cached m = Some c ∧
    ((∃ h, conn c = Some h ∧ s = Return (Some h) ∧ w' = w) ∨
     (∃ p, conn c = None ∧ promise c = Some p ∧ s = Await (Some p) ∧ w' = w) ∨
     (conn c = None ∧ promise c = None ∧
      s = Await (Some (length (driver w))) ∧ w' = start_attempt m w)).
Proof.
  intros H. destruct (heap w !! cached m) as [c|] eqn:Hc.
  - exists c. split; [done|].
    destruct (conn c) as [h|] eqn:Hh.
    + left. exists h. rewrite (call_connected m w c h Hc Hh) in H. by inversion H.
    + destruct (promise c) as [p|] eqn:Hp.
      * right; left. exists p. rewrite (call_pending m w c p Hc Hh Hp) in H.
        by inversion H.
      * right; right. rewrite (call_fresh m w c Hc Hh Hp) in H. by inversion H.
  - unfold connectDB_call in H. rewrite Hc in H. discriminate.
Qed.

Lemma settle_inv (p : PromiseId) (r : Handle + Error) (w w' : World) :
  driver_settle p r w = Some w' →
  ∃ uri o, driver w !! p = Some (mkConnect uri o Pending) ∧
    w' = set_driver (<[p := mkConnect uri o
            match r with inl v => Fulfilled v | inr e => Rejected e end]> (driver w)) w.
Proof.
  unfold driver_settle. intros H.
  destruct (driver w !! p) as [[uri o []]|]; try discriminate.
  exists uri, o. split; [done|]. by inversion H.
Qed.

Lemma resume_value (l : loc) (v : option Handle) (w : World) (c : MongooseCache) :
  heap w !! l = Some c →
  connectDB_resume l (inl v) w = Some (Resolved v, set_conn l v w).
Proof.
  intros Hc. unfold connectDB_resume.
  rewrite lookup_set_conn, decide_True by done. by rewrite Hc.
Qed.

Lemma resume_cases (l : loc) (r : option Handle + Error) (w : World)
    (o : Outcome) (w' : World) :
  connectDB_resume l r w = Some (o, w') →
  (∃ v, r = inl v ∧ o = Resolved v ∧ w' = set_conn l v w ∧ is_Some (heap w !! l)) ∨
  (∃ e, r = inr e ∧ o = Threw e ∧ w' = set_promise l None w).
Proof.
  destruct r as [v|e]; intros H.
  - left. exists v. destruct (heap w !! l) as [c|] eqn:Hc.
    + rewrite (resume_value l v w c Hc) in H. inversion H. eauto.
    + unfold connectDB_resume in H.
      rewrite lookup_set_conn, decide_True, Hc in H by done. discriminate.
  - right. exists e. simpl in H. by inversion H.
Qed.

Lemma step_call_inv (j : nat) (w w' : World) :
  step (Call j) w = Some w' →
  ∃ m s w1, modules w !! j = Some m ∧ connectDB_call m w = Some (s, w1) ∧
    w' = match s with
         | Return v => add_returned (issued w, Resolved v) (next_caller w1)
         | Await x =>
             set_tasks (tasks w1 ++ [mkTask (issued w) (cached m) x]) (next_caller w1)
         end.
Proof.
  simpl. intros H.
  destruct (modules w !! j) as [m|] eqn:Hm; [|discriminate]. simpl in H.
  destruct (connectDB_call m w) as [[s w1]|] eqn:Hc; [|discriminate]. simpl in H.
  exists m, s, w1. destruct s; by inversion H.
Qed.

Lemma step_resume_inv (i : nat) (w w' : World) :
  step (Resume i) w = Some w' →
  ∃ t r o w1, tasks w !! i = Some t ∧
    await_result w (task_awaits t) = Some r ∧
    connectDB_resume (task_cached t) r w = Some (o, w1) ∧
    w' = add_returned (task_caller t, o) (set_tasks (delete i (tasks w1)) w1).
Proof.
  simpl. intros H.
  destruct (tasks w !! i) as [t|] eqn:Ht; [|discriminate]. simpl in H.
  destruct (await_result w (task_awaits t)) as [r|] eqn:Hr; [|discriminate].
  simpl in H.
  destruct (connectDB_resume (task_cached t) r w) as [[o w1]|] eqn:Hk; [|discriminate].
  simpl in H. exists t, r, o, w1. by inversion H.
Qed.

Lemma module_init_cases (env : option string) (w : World) :
  (module_init env w = inl missing_uri_message ∧ (env = None ∨ env = Some ""%string)) ∨
  (∃ uri, env = Some uri ∧ uri ≠ ""%string ∧
     match global_mongoose w with
     | Some l => module_init env w = inr (mkModule uri l, w)
     | None =>
         module_init env w =
         inr (mkModule uri (length (heap w)),
              set_global (Some (length (heap w)))
                (set_heap (heap w ++ [mkCache None None]) w))
     end).
Proof.
  destruct env as [[|a s]|];
    [left; split; [done|by right] | | left; split; [done|by left]].
  right. exists (String a s). split; [done|]. split; [done|].
  unfold module_init. destruct (global_mongoose w) as [l|] eqn:Hg; simpl.
  - by rewrite Hg.
  - by rewrite Hg.
Qed.

(** ** Every step keeps the world well-formed *)

Lemma elem_of_alter {A} (f : A → A) (l : nat) (h : list A) (c : A) :
  c ∈ alter f l h → c ∈ h ∨ ∃ c0, c0 ∈ h ∧ c = f c0.
Proof.
  intros [i Hi]%list_elem_of_lookup.
  rewrite list_lookup_alter in Hi. case_decide.
  - destruct (h !! l) as [c0|] eqn:E; simpl in Hi; [|discriminate].
    inversion Hi. right. exists c0. split; [|done].
    apply list_elem_of_lookup; eauto.
  - left. apply list_elem_of_lookup; eauto.
Qed.

Lemma elem_of_delete {A} (i : nat) (l : list A) (x : A) :
  x ∈ delete i l → x ∈ l.
Proof.
  revert i. induction l as [|a l IH]; intros [|i]; simpl; intros H.
  - done.
  - done.
  - by right.
  - apply elem_of_cons in H as [->|H]; [by left|right; eauto].
Qed.

Lemma wf_World0 : wf World0.
Proof.
  split; simpl; intros; try done;
    match goal with H : _ ∈ [] |- _ => by apply elem_of_nil in H end.
Qed.

Lemma wf_import (env : option string) (w w' : World) :
  wf w → step (Import env) w = Some w' → wf w'.
Proof.
  intros [Hg Hm Ht Hh Hd] H. simpl in H.
  destruct (module_init_cases env w) as [[E _]|(uri & -> & Hne & E)].
  - rewrite E in H. inversion H; subst. by split.
  - destruct (global_mongoose w) as [l|] eqn:Hgl; rewrite E in H; inversion H; subst; clear H.
    + split; simpl; [|  |done|done|].
      * intros l0 E0. apply Hg. congruence.
      * intros m [Hin|Hin]%elem_of_app.
        -- destruct (Hm m Hin) as [? ?]. split; congruence.
        -- apply list_elem_of_singleton in Hin as ->. simpl. by rewrite Hgl.
      * intros k Hk. destruct (Hd k Hk) as [Ho (m & Hin & Hu)].
        split; [done|]. exists m. split; [|done]. apply elem_of_app; by left.
    + split; simpl.
      * intros l [= <-]. rewrite length_app; simpl; lia.
      * intros m [Hin|Hin]%elem_of_app.
        -- destruct (Hm m Hin) as [? _]. congruence.
        -- apply list_elem_of_singleton in Hin as ->. by simpl.
      * intros t Hin. destruct (Ht t Hin) as [Hl Hp]. split; [|done].
        rewrite length_app; simpl; lia.
      * intros c p [Hin|Hin]%elem_of_app; [by apply Hh|].
        apply list_elem_of_singleton in Hin as ->. by simpl.
      * intros k Hk. destruct (Hd k Hk) as [Ho (m & Hin & Hu)].
        split; [done|]. exists m. split; [|done]. apply elem_of_app; by left.
Qed.

Lemma wf_start_attempt (m : Module) (w : World) :
  wf w → m ∈ modules w → wf (start_attempt m w).
Proof.
  intros [Hg Hm Ht Hh Hd] Hin. unfold start_attempt. split; simpl.
  - intros l E. rewrite length_alter. by apply Hg.
  - done.
  - intros t Hi. destruct (Ht t Hi) as [Hl (p & Hp & Hlt)].
    rewrite length_alter, length_app. split; [done|].
    exists p. split; [done|]. simpl; lia.
  - intros c p Hc Hp. rewrite length_app; simpl.
    apply elem_of_alter in Hc as [Hc|(c0 & Hc & ->)].
    + specialize (Hh c p Hc Hp). lia.
    + simpl in Hp. inversion Hp. lia.
  - intros k [Hk|Hk]%elem_of_app; [by apply Hd|].
    apply list_elem_of_singleton in Hk as ->. simpl. eauto.
Qed.

Lemma wf_call (j : nat) (w w' : World) :
  wf w → step (Call j) w = Some w' → wf w'.
Proof.
  intros Hwf H.
  apply step_call_inv in H as (m & s & w1 & Hj & Hc & ->).
  assert (Hin : m ∈ modules w) by (apply list_elem_of_lookup; eauto).
  apply call_cases in Hc
    as (c & Hl & [(h & _ & -> & ->)|[(p & _ & Hp & -> & ->)|(_ & _ & -> & ->)]]).
  - destruct Hwf as [Hg Hm Ht Hh Hd]. by split.
  - destruct Hwf as [Hg Hm Ht Hh Hd]. split; simpl; try done.
    intros t [Hi|Hi]%elem_of_app; [by apply Ht|].
    apply list_elem_of_singleton in Hi as ->. simpl. split.
    + by apply lookup_lt_Some in Hl.
    + exists p. split; [done|]. apply (Hh c); [|done].
      apply list_elem_of_lookup; eauto.
  - pose proof (wf_start_attempt m w Hwf Hin) as [Hg Hm Ht Hh Hd].
    split; try done.
    intros t [Hi|Hi]%elem_of_app; [by apply Ht|].
    apply list_elem_of_singleton in Hi as ->. simpl. split.
    + rewrite length_alter. by apply lookup_lt_Some in Hl.
    + exists (length (driver w)). split; [done|]. rewrite length_app; simpl; lia.
Qed.

Lemma wf_settle (p : PromiseId) (r : Handle + Error) (w w' : World) :
  wf w → step (Settle p r) w = Some w' → wf w'.
Proof.
  intros [Hg Hm Ht Hh Hd] H. simpl in H.
  apply settle_inv in H as (uri & o & Hp & ->).
  split; simpl; try done.
  - intros t Hi. rewrite length_insert. by apply Ht.
  - intros c q Hc Hq. rewrite length_insert. by apply (Hh c).
  - intros k [i Hi]%list_elem_of_lookup.
    rewrite list_lookup_insert in Hi. case_decide as E.
    + inversion Hi; subst; simpl.
      apply (Hd (mkConnect uri o Pending)). apply list_elem_of_lookup; eauto.
    + apply Hd. apply list_elem_of_lookup; eauto.
Qed.

Lemma wf_resume (i : nat) (w w' : World) :
  wf w → step (Resume i) w = Some w' → wf w'.
Proof.
  intros [Hg Hm Ht Hh Hd] H.
  apply step_resume_inv in H as (t & r & o & w1 & Hi & Hr & Hk & ->).
  apply resume_cases in Hk as [(v & -> & -> & -> & _)|(e & -> & -> & ->)].
  - split; simpl; try done.
    + intros l E. rewrite length_alter. by apply Hg.
    + intros t' Hi'%elem_of_delete. rewrite length_alter. by apply Ht.
    + intros c p [Hc|(c0 & Hc & ->)]%elem_of_alter Hp; [by apply (Hh c)|].
      by apply (Hh c0).
  - split; simpl; try done.
    + intros l E. rewrite length_alter. by apply Hg.
    + intros t' Hi'%elem_of_delete. rewrite length_alter. by apply Ht.
    + intros c p [Hc|(c0 & Hc & ->)]%elem_of_alter Hp; [by apply (Hh c)|].
      discriminate.
Qed.

Lemma wf_step (ev : Event) (w w' : World) :
  wf w → step ev w = Some w' → wf w'.
Proof.
  destruct ev; eauto using wf_import, wf_call, wf_settle, wf_resume.
Qed.

Lemma wf_run (evs : list Event) (w w' : World) :
  wf w → run evs w = Some w' → wf w'.
Proof.
  revert w. induction evs as [|ev evs IH]; simpl; intros w Hwf H.
  - by inversion H; subst.
  - run_next H w1 E.
    eauto using wf_step.
Qed.

Lemma reachable_wf (w : World) : reachable w → wf w.
Proof. intros [evs H]. exact (wf_run evs World0 w wf_World0 H). Qed.

(** ** Windows without a resumption: single flight *)

Lemma settle_frame (p : PromiseId) (r : Handle + Error) (w w' : World) :
  step (Settle p r) w = Some w' →
  heap w' = heap w ∧ global_mongoose w' = global_mongoose w ∧
  connect_count w' = connect_count w ∧ tasks w' = tasks w ∧
  returned w' = returned w ∧ modules w' = modules w.
Proof.
  simpl. intros (uri & o & Hp & ->)%settle_inv. unfold connect_count; simpl.
  by rewrite length_insert.
Qed.

Lemma heap_start_attempt (m : Module) (w : World) (c : MongooseCache) :
  heap w !! cached m = Some c →
  heap (start_attempt m w) !! cached m =
  Some (mkCache (conn c) (Some (connect_count w))).
Proof.
  intros Hc. unfold start_attempt.
  rewrite lookup_set_promise, decide_True by done. simpl. by rewrite Hc.
Qed.

Lemma window_pending (evs : list Event) (w w' : World) (l : loc) (p : PromiseId) :
  Forall (λ m, cached m = l) (modules w) →
  heap w !! l = Some (mkCache None (Some p)) →
  forallb in_window evs = true →
  run evs w = Some w' →
  heap w' = heap w ∧ connect_count w' = connect_count w ∧
  returned w' = returned w ∧ modules w' = modules w ∧
  ∃ ts, tasks w' = tasks w ++ ts ∧ length ts = calls evs ∧ Forall (waits_on l p) ts.
Proof.
  revert w. induction evs as [|ev evs IH]; simpl; intros w Hms Hl Hwin Hrun.
  - inversion Hrun; subst. repeat split. exists []. by rewrite app_nil_r.
  - apply andb_prop in Hwin as [Hev Hwin].
    run_next Hrun w1 Hstep.
    destruct ev as [env|j|q r|i]; try discriminate.
    + apply step_call_inv in Hstep as (m & s & w0 & Hj & Hc & ->).
      assert (cached m = l) as Hml by (eapply (Forall_lookup_1 _ _ _ _ Hms); eauto).
      rewrite (call_pending m w _ p) in Hc by (by rewrite ?Hml).
      inversion Hc; subst s w0; clear Hc.
      set (w1 := set_tasks _ _) in Hrun.
      destruct (IH w1 Hms Hl Hwin Hrun) as (Hh & Hc & Hr & Hm & ts & Hts & Hn & Hall).
      subst w1; simpl in *. repeat split; try done.
      exists (mkTask (issued w) (cached m) (Some p) :: ts).
      rewrite Hts, <- app_assoc. split; [done|].
      unfold calls in *; simpl. split; [by rewrite Hn|].
      constructor; [by split|done].
    + pose proof (settle_frame _ _ _ _ Hstep) as (Eh & _ & Ec & Et & Er & Em).
      rewrite <- Em in Hms. rewrite <- Eh in Hl.
      destruct (IH _ Hms Hl Hwin Hrun) as (Hh & Hc & Hr & Hm & ts & Hts & Hn & Hall).
      repeat split; try congruence.
      exists ts. unfold calls in *; simpl. split; [congruence|done].
Qed.

Lemma window_fresh (evs : list Event) (w w' : World) (l : loc) :
  Forall (λ m, cached m = l) (modules w) →
  heap w !! l = Some (mkCache None None) →
  forallb in_window evs = true →
  existsb is_call evs = true →
  run evs w = Some w' →
  connect_count w' = S (connect_count w) ∧
  heap w' !! l = Some (mkCache None (Some (connect_count w))) ∧
  returned w' = returned w ∧
  ∃ ts, tasks w' = tasks w ++ ts ∧ length ts = calls evs ∧
        Forall (waits_on l (connect_count w)) ts.
Proof.
  revert w. induction evs as [|ev evs IH]; simpl; intros w Hms Hl Hwin Hex Hrun.
  - discriminate.
  - apply andb_prop in Hwin as [Hev Hwin].
    run_next Hrun w1 Hstep.
    destruct ev as [env|j|q r|i]; try discriminate.
    + clear IH Hex.
      apply step_call_inv in Hstep as (m & s & w0 & Hj & Hc & ->).
      assert (cached m = l) as Hml by (eapply (Forall_lookup_1 _ _ _ _ Hms); eauto).
      rewrite (call_fresh m w (mkCache None None)) in Hc by (by rewrite ?Hml).
      inversion Hc; subst s w0; clear Hc.
      set (w1 := set_tasks _ _) in Hrun.
      assert (Hl1 : heap w1 !! l = Some (mkCache None (Some (connect_count w)))).
      { change (heap w1) with (heap (start_attempt m w)). subst l.
        by rewrite (heap_start_attempt m w _ Hl). }
      destruct (window_pending evs w1 w' l (connect_count w) Hms Hl1 Hwin Hrun)
        as (Hh & Hc & Hr & Hm & ts & Hts & Hn & Hall).
      split. { rewrite Hc. unfold connect_count; subst w1; simpl.
               rewrite length_app; simpl; lia. }
      split. { by rewrite Hh. }
      split. { by rewrite Hr. }
      exists (mkTask (issued w) (cached m) (Some (connect_count w)) :: ts).
      rewrite Hts. subst w1; simpl. rewrite <- app_assoc. split; [done|].
      unfold calls in *; simpl. split; [by rewrite Hn|].
      constructor; [by split|done].
    + simpl in Hex.
      pose proof (settle_frame _ _ _ _ Hstep) as (Eh & _ & Ec & Et & Er & Em).
      rewrite <- Em in Hms. rewrite <- Eh in Hl.
      destruct (IH _ Hms Hl Hwin Hex Hrun) as (Hc & Hh & Hr & ts & Hts & Hn & Hall).
      rewrite Ec in Hc, Hh, Hall. rewrite Et in Hts. rewrite Er in Hr.
      repeat split; try done. exists ts. unfold calls in *; simpl. done.
Qed.

(** ** What one event does to a cache object *)

Lemma import_frame (env : option string) (w w' : World) :
  step (Import env) w = Some w' →
  driver w' = driver w ∧ tasks w' = tasks w ∧ returned w' = returned w ∧
  ∀ l c, heap w !! l = Some c → heap w' !! l = Some c.
Proof.
  simpl. intros H.
  destruct (module_init_cases env w) as [[E _]|(uri & -> & Hne & E)].
  - rewrite E in H. by inversion H; subst.
  - destruct (global_mongoose w) as [l|]; rewrite E in H; inversion H; subst; simpl.
    + done.
    + repeat split. intros l c Hl. by apply lookup_app_l_Some.
Qed.

Lemma step_cache (ev : Event) (w w' : World) (l : loc) (c : MongooseCache) :
  step ev w = Some w' → heap w !! l = Some c →
  ∃ c', heap w' !! l = Some c' ∧ cache_effect ev w l c c'.
Proof.
  intros H Hl. destruct ev as [env|j|q r|i].
  - apply import_frame in H as (_ & _ & _ & Hh). exists c. split; [by apply Hh|done].
  - apply step_call_inv in H as (m & s & w1 & Hj & Hc & ->).
    apply call_cases in Hc
      as (c0 & Hl0 & [(h & _ & -> & ->)|[(p & _ & Hp & -> & ->)|(Hn & Hp & -> & ->)]]).
    + exists c. split; [done|by left].
    + exists c. split; [done|by left].
    + change (heap (set_tasks _ _)) with (heap (start_attempt m w)).
      destruct (decide (cached m = l)) as [E|E].
      * subst l. rewrite Hl in Hl0. inversion Hl0; subst c0.
        rewrite (heap_start_attempt m w c Hl).
        eexists. split; [done|]. right. cbn [event_cache]. rewrite Hj; simpl.
        split; [done|]. destruct c as [cn pr]; simpl in *; subst. done.
      * exists c. split; [|by left]. unfold start_attempt.
        by rewrite lookup_set_promise, decide_False.
  - apply settle_frame in H as (Hh & _). exists c. by rewrite Hh.
  - apply step_resume_inv in H as (t & r & o & w1 & Hi & Hr & Hk & ->).
    cbn [cache_effect event_cache]. rewrite Hi; simpl.
    apply resume_cases in Hk as [(v & -> & -> & -> & _)|(e & -> & -> & ->)].
    + change (heap (add_returned _ _)) with (heap (set_conn (task_cached t) v w)).
      rewrite lookup_set_conn. case_decide as E.
      * rewrite Hl; simpl. eexists. split; [done|]. right.
        split; [by rewrite E|]. by exists t, (inl v).
      * exists c. split; [done|]. left. split; [congruence|done].
    + change (heap (add_returned _ _))
        with (heap (set_promise (task_cached t) None w)).
      rewrite lookup_set_promise. case_decide as E.
      * rewrite Hl; simpl. eexists. split; [done|]. right.
        split; [by rewrite E|]. by exists t, (inr e).
      * exists c. split; [done|]. left. split; [congruence|done].
Qed.

(** ** Settled promises stay settled *)

Lemma promise_state_step (ev : Event) (w w' : World) (p : PromiseId) (s : PromiseState) :
  step ev w = Some w' → promise_state w p = Some s → s ≠ Pending →
  promise_state w' p = Some s.
Proof.
  intros H Hs Hne. unfold promise_state in *.
  destruct (driver w !! p) as [k|] eqn:Hk; [|discriminate].
  destruct ev as [env|j|q r|i].
  - apply import_frame in H as (-> & _). by rewrite Hk.
  - apply step_call_inv in H as (m & s0 & w1 & Hj & Hc & ->).
    apply call_cases in Hc
      as (c0 & Hl0 & [(h & _ & -> & ->)|[(p0 & _ & Hp & -> & ->)|(Hn & Hp & -> & ->)]]);
      simpl; rewrite ?Hk; try done.
    by rewrite (lookup_app_l_Some _ _ _ _ Hk).
  - simpl in H. apply settle_inv in H as (uri & o & Hq & ->).
    cbn [driver set_driver].
    rewrite list_lookup_insert. case_decide as E.
    + destruct E as [-> _]. rewrite Hq in Hk. inversion Hk; subst k.
      simpl in Hs. by inversion Hs.
    + by rewrite Hk.
  - apply step_resume_inv in H as (t & r & o & w1 & Hi & Hr & Hc & ->).
    apply resume_cases in Hc as [(v & -> & -> & -> & _)|(e & -> & -> & ->)];
      simpl; by rewrite Hk.
Qed.

Lemma promise_state_run (evs : list Event) (w w' : World) (p : PromiseId) (s : PromiseState) :
  run evs w = Some w' → promise_state w p = Some s → s ≠ Pending →
  promise_state w' p = Some s.
Proof.
  revert w. induction evs as [|ev evs IH]; simpl; intros w H Hs Hne.
  - by inversion H; subst.
  - run_next H w1 E.
    eauto using promise_state_step.
Qed.

Lemma resume_rejected (i : nat) (w : World) (t : Task) (e : Error) :
  tasks w !! i = Some t →
  await_result w (task_awaits t) = Some (inr e) →
  step (Resume i) w =
  Some (add_returned (task_caller t, Threw e)
          (set_tasks (delete i (tasks w)) (set_promise (task_cached t) None w))).
Proof. intros Ht Hr. simpl. rewrite Ht; simpl. by rewrite Hr. Qed.

Lemma resume_fulfilled (i : nat) (w : World) (t : Task) (v : option Handle) (c : MongooseCache) :
  tasks w !! i = Some t →
  await_result w (task_awaits t) = Some (inl v) →
  heap w !! task_cached t = Some c →
  step (Resume i) w =
  Some (add_returned (task_caller t, Resolved v)
          (set_tasks (delete i (tasks w)) (set_conn (task_cached t) v w))).
Proof.
  intros Ht Hr Hc. unfold step. rewrite Ht. cbn [mbind option_bind].
  rewrite Hr. cbn [mbind option_bind].
  by rewrite (resume_value _ v w c Hc).
Qed.

(** ** More windows: connected cache, and the general bound *)

Lemma step_call_connected (j : nat) (w : World) (m : Module) (c : MongooseCache) (h : Handle) :
  modules w !! j = Some m → heap w !! cached m = Some c → conn c = Some h →
  step (Call j) w = Some (add_returned (issued w, Resolved (Some h)) (next_caller w)).
Proof.
  intros Hj Hc Hh. unfold step. rewrite Hj. cbn [mbind option_bind].
  by rewrite (call_connected m w c h Hc Hh).
Qed.

Lemma step_call_fresh (j : nat) (w : World) (m : Module) :
  modules w !! j = Some m → heap w !! cached m = Some (mkCache None None) →
  step (Call j) w =
  Some (set_tasks (tasks w ++ [mkTask (issued w) (cached m) (Some (connect_count w))])
          (next_caller (start_attempt m w))).
Proof.
  intros Hj Hc. unfold step. rewrite Hj. cbn [mbind option_bind].
  by rewrite (call_fresh m w _ Hc).
Qed.

Lemma window_connected (evs : list Event) (w w' : World) (l : loc)
    (h : Handle) (x : option PromiseId) :
  Forall (λ m, cached m = l) (modules w) →
  heap w !! l = Some (mkCache (Some h) x) →
  forallb in_window evs = true →
  run evs w = Some w' →
  heap w' = heap w ∧ connect_count w' = connect_count w ∧ tasks w' = tasks w.
Proof.
  revert w. induction evs as [|ev evs IH]; simpl; intros w Hms Hl Hwin Hrun.
  - by inversion Hrun; subst.
  - apply andb_prop in Hwin as [Hev Hwin].
    run_next Hrun w1 Hstep.
    destruct ev as [env|j|q r|i]; try discriminate.
    + destruct (modules w !! j) as [m|] eqn:Hj; [|by simpl in Hstep; rewrite Hj in Hstep].
      assert (cached m = l) as Hml by (eapply (Forall_lookup_1 _ _ _ _ Hms); eauto).
      rewrite (step_call_connected j w m _ h Hj) in Hstep by (by rewrite ?Hml).
      inversion Hstep; subst w1; clear Hstep.
      set (w1 := add_returned _ _) in Hrun.
      destruct (IH w1 Hms Hl Hwin Hrun) as (Hh & Hc & Ht). by subst w1.
    + pose proof (settle_frame _ _ _ _ Hstep) as (Eh & _ & Ec & Et & Er & Em).
      rewrite <- Em in Hms. rewrite <- Eh in Hl.
      destruct (IH _ Hms Hl Hwin Hrun) as (Hh & Hc & Ht).
      repeat split; congruence.
Qed.



Lemma wf_shared_cache (w : World) (l : loc) :
  wf w → global_mongoose w = Some l → Forall (λ m, cached m = l) (modules w).
Proof.
  intros Hwf Hg. apply Forall_forall. intros m Hin.
  destruct (wf_modules w Hwf m Hin) as [E _]. congruence.
Qed.

Lemma world_loaded_reachable : reachable world_loaded.
Proof. exists [Import (Some demo_uri)]. reflexivity. Qed.

Lemma wf_world_loaded : wf world_loaded.
Proof. exact (reachable_wf _ world_loaded_reachable). Qed.

(** * The claims *)

(** Single flight inside a window.  Take a window in which [connectDB]
    is called N >= 1 times and no activation of [connectDB], of these
    callers or of earlier ones, is resumed (the driver may settle its
    promises meanwhile), starting with no handle cached.  If [cached.promise] was
    null, [mongoose.connect] is invoked exactly once in the window; if it
    already held a promise, it is not invoked at all.  In both cases every
    one of the N callers is suspended on the very promise stored in
    [cached.promise]. *)
Theorem concurrent_calls_connect_once
    (evs : list Event) (w w' : World) (l : loc) (x : option PromiseId) :
  wf w →
  global_mongoose w = Some l →
  heap w !! l = Some (mkCache None x) →
  forallb in_window evs = true →
  existsb is_call evs = true →
  run evs w = Some w' →
  connect_count w' =
    match x with None => S (connect_count w) | Some _ => connect_count w end ∧
  promise_at w' l = Some (Some (default (connect_count w) x)) ∧
  returned w' = returned w ∧
  ∃ ts, tasks w' = tasks w ++ ts ∧ length ts = calls evs ∧
        Forall (waits_on l (default (connect_count w) x)) ts.
Proof.
  intros Hwf Hg Hl Hwin Hex Hrun.
  pose proof (wf_shared_cache w l Hwf Hg) as Hms.
  destruct x as [p|]; simpl.
  - destruct (window_pending evs w w' l p Hms Hl Hwin Hrun)
      as (Hh & Hc & Hr & _ & Hts).
    unfold promise_at. rewrite Hh, Hl. done.
  - destruct (window_fresh evs w w' l Hms Hl Hwin Hex Hrun) as (Hc & Hh & Hr & Hts).
    unfold promise_at. rewrite Hh. done.
Qed.

Lemma concurrent_calls_connect_once_witness :
  ∃ w', run [Call 0; Call 0; Settle 0 (inl 7); Call 0] world_loaded = Some w' ∧
    connect_count w' = 1 ∧
    promise_at w' 0 = Some (Some 0) ∧
    returned w' = [] ∧
    ∃ ts, tasks w' = [] ++ ts ∧ length ts = 3 ∧ Forall (waits_on 0 0) ts.
Proof.
  eexists. split; [reflexivity|].
  apply (concurrent_calls_connect_once
           [Call 0; Call 0; Settle 0 (inl 7); Call 0] world_loaded _ 0 None).
  - exact wf_world_loaded.
  - reflexivity.
  - reflexivity.
  - reflexivity.
  - reflexivity.
  - reflexivity.
Defined.

(** The part of C2 that holds: with a handle cached, a call returns that
    handle at once, does not invoke the driver and changes neither the
    cache nor the set of suspended activations. *)
Lemma connected_call_returns_cached
    (j : nat) (w : World) (m : Module) (h : Handle) :
  modules w !! j = Some m → conn_at w (cached m) = Some (Some h) →
  ∃ w', step (Call j) w = Some w' ∧
    returned w' = returned w ++ [(issued w, Resolved (Some h))] ∧
    heap w' = heap w ∧ driver w' = driver w ∧ tasks w' = tasks w.
Proof.
  unfold conn_at. intros Hj Hc.
  destruct (heap w !! cached m) as [c|] eqn:Hl; [|discriminate].
  simpl in Hc. assert (Hh : conn c = Some h) by congruence.
  rewrite (step_call_connected j w m c h Hj Hl Hh).
  eexists. split; [reflexivity|done].
Qed.

(** Also holding: once a handle is cached, no event makes [cached.conn]
    null again. *)
Lemma conn_stays_connected (ev : Event) (w w' : World) (l : loc) (h : Handle) :
  wf w → step ev w = Some w' → conn_at w l = Some (Some h) →
  ∃ h', conn_at w' l = Some (Some h').
Proof.
  unfold conn_at. intros Hwf Hstep Hc.
  destruct (heap w !! l) as [c|] eqn:Hl; [|discriminate].
  simpl in Hc. assert (Hh : conn c = Some h) by congruence.
  destruct (step_cache ev w w' l c Hstep Hl) as (c' & -> & Heff). simpl.
  destruct ev as [env|j|q r|i]; simpl in Heff.
  - subst. eauto.
  - destruct Heff as [->|(_ & -> & _)]; [eauto|by simpl in Hh].
  - subst. eauto.
  - destruct Heff as [(_ & ->)|(_ & t & r & Ht & Hr & ->)]; [eauto|].
    destruct r as [v|e]; simpl; [|eauto].
    destruct (wf_tasks w Hwf t) as (_ & p & Hp & _).
    { apply list_elem_of_lookup; eauto. }
    rewrite Hp in Hr. simpl in Hr.
    destruct (promise_state w p) as [[]|]; inversion Hr. eauto.
Qed.

(** With a driver that resolves every connect with one and the same
    instance [h], a cached handle never changes, whatever the schedule. *)
Lemma one_instance_step (ev : Event) (w w' : World) (l : loc) (h : Handle) :
  wf w → resolves_with h w → settles_with h ev → step ev w = Some w' →
  resolves_with h w' ∧ (conn_at w l = Some (Some h) → conn_at w' l = Some (Some h)).
Proof.
  intros Hwf Hres Hset Hstep. split.
  - intros k v Hk Hv. destruct ev as [env|j|q r|i].
    + apply import_frame in Hstep as (E & _). rewrite E in Hk. eauto.
    + apply step_call_inv in Hstep as (m & s0 & w1 & Hj & Hc & ->).
      apply call_cases in Hc
        as (c0 & Hl0 & [(h0 & _ & -> & ->)|[(p0 & _ & Hp & -> & ->)|(Hn & Hp & -> & ->)]]);
        simpl in Hk; eauto.
      apply elem_of_app in Hk as [Hk|Hk]; [eauto|].
      apply list_elem_of_singleton in Hk as ->. discriminate.
    + simpl in Hstep. apply settle_inv in Hstep as (uri & o & Hq & ->).
      simpl in Hk. apply list_elem_of_lookup in Hk as [n Hn].
      rewrite list_lookup_insert in Hn. case_decide as E.
      * inversion Hn; subst k. simpl in Hv. destruct r as [v0|e]; [|discriminate].
        inversion Hv; subst v0. by apply (Hset q v).
      * apply (Hres k); [|done]. apply list_elem_of_lookup; eauto.
    + apply step_resume_inv in Hstep as (t & r & o & w1 & Hi & Hr & Hc & ->).
      apply resume_cases in Hc as [(v0 & -> & -> & -> & _)|(e & -> & -> & ->)];
        simpl in Hk; eauto.
  - unfold conn_at. intros Hc.
    destruct (heap w !! l) as [c|] eqn:Hl; [|discriminate].
    simpl in Hc. assert (Hh : conn c = Some h) by congruence.
    destruct (step_cache ev w w' l c Hstep Hl) as (c' & -> & Heff). simpl.
    destruct ev as [env|j|q r|i]; simpl in Heff.
    + by subst.
    + destruct Heff as [->|(_ & -> & _)]; [done|by simpl in Hh].
    + by subst.
    + destruct Heff as [(_ & ->)|(_ & t & r & Ht & Hr & ->)]; [done|].
      destruct r as [v|e]; simpl; [|by rewrite Hh].
      destruct (wf_tasks w Hwf t) as (_ & p & Hp & _).
      { apply list_elem_of_lookup; eauto. }
      rewrite Hp in Hr. simpl in Hr. unfold promise_state in Hr.
      destruct (driver w !! p) as [k|] eqn:Hk; [|discriminate].
      destruct (call_state k) as [|v'|e'] eqn:Hs; simpl in Hr; inversion Hr.
      rewrite (Hres k v'); [done| |done]. apply list_elem_of_lookup; eauto.
Qed.

Lemma one_instance_run (evs : list Event) (w w' : World) (l : loc) (h : Handle) :
  wf w → resolves_with h w → Forall (settles_with h) evs → run evs w = Some w' →
  conn_at w l = Some (Some h) → conn_at w' l = Some (Some h).
Proof.
  revert w. induction evs as [|ev evs IH]; simpl; intros w Hwf Hres Hall Hrun Hc.
  - by inversion Hrun; subst.
  - run_next Hrun w1 E.
    apply Forall_cons in Hall as [Hev Hall].
    destruct (one_instance_step ev w w1 l h Hwf Hres Hev E) as [Hres1 Hc1].
    eauto using wf_step.
Qed.

(** What the cache logic alone would allow, were the driver to hand out a
    different object per connect: after [stale_waiter_calls] the second and
    the third attempt are pending together; the second resolves with
    handle 7, which is cached and returned, the third with handle 8, and
    its continuation overwrites [cached.conn].  That the handle stays the
    same therefore rests on the driver resolving with one instance. *)
Theorem stale_waiter_replaces_connection :
  ∃ w0 w1 w2,
    run stale_waiter_calls World0 = Some w0 ∧
    call_state <$> driver w0 = [Rejected "ECONNREFUSED"; Pending; Pending] ∧
    run (take 2 stale_waiter_settles) w0 = Some w1 ∧
    conn_at w1 0 = Some (Some 7) ∧
    run (drop 2 stale_waiter_settles) w1 = Some w2 ∧
    conn_at w2 0 = Some (Some 8) ∧
    connect_count w2 = 3 ∧
    returned w2 =
      [ (0, Threw "ECONNREFUSED"%string); (1, Threw "ECONNREFUSED"%string);
        (2, Resolved (Some 7)); (3, Resolved (Some 8)); (4, Resolved (Some 8)) ].
Proof.
  eexists. eexists. eexists.
  split; [vm_compute; reflexivity|].
  split; [reflexivity|].
  split; [vm_compute; reflexivity|].
  split; [reflexivity|].
  split; [vm_compute; reflexivity|].
  done.
Qed.

Lemma world_rejected_reachable : reachable world_rejected.
Proof.
  exists [Import (Some demo_uri); Call 0; Settle 0 (inr "ECONNREFUSED"%string)].
  reflexivity.
Qed.

(** C3.  When the awaited connect promise is rejected with [e], the
    continuation sets [cached.promise] to null, rethrows [e] and invokes
    nothing on the driver.  With no handle cached, the next call to
    [connectDB] then invokes [mongoose.connect] exactly once and suspends on
    the new promise, which is stored in [cached.promise]. *)
Theorem failure_clears_promise_then_retry
    (i j : nat) (w : World) (t : Task) (e : Error) (m : Module) (c : MongooseCache) :
  tasks w !! i = Some t →
  await_result w (task_awaits t) = Some (inr e) →
  modules w !! j = Some m →
  cached m = task_cached t →
  heap w !! cached m = Some c →
  ∃ w1, step (Resume i) w = Some w1 ∧
    returned w1 = returned w ++ [(task_caller t, Threw e)] ∧
    heap w1 !! cached m = Some (mkCache (conn c) None) ∧
    driver w1 = driver w ∧
    (conn c = None →
     ∃ w2, step (Call j) w1 = Some w2 ∧
       driver w2 = driver w1 ++ [mkConnect (MONGODB_URI m) (mkOptions false) Pending] ∧
       promise_at w2 (cached m) = Some (Some (connect_count w1)) ∧
       tasks w2 = tasks w1 ++ [mkTask (issued w1) (cached m) (Some (connect_count w1))]).
Proof.
  intros Ht Hr Hj Hm Hc.
  rewrite (resume_rejected i w t e Ht Hr). eexists. split; [reflexivity|].
  set (w1 := add_returned _ _).
  assert (Hc1 : heap w1 !! cached m = Some (mkCache (conn c) None)).
  { subst w1. change (heap (add_returned _ _))
      with (heap (set_promise (task_cached t) None w)).
    rewrite lookup_set_promise, decide_True by done. by rewrite Hc. }
  split; [done|]. split; [done|]. split; [done|].
  intros Hn. rewrite Hn in Hc1.
  assert (Hj1 : modules w1 !! j = Some m) by done.
  rewrite (step_call_fresh j w1 m Hj1 Hc1). eexists. split; [reflexivity|].
  split; [done|]. split; [|done].
  unfold promise_at.
  change (heap (set_tasks _ _)) with (heap (start_attempt m w1)).
  by rewrite (heap_start_attempt m w1 _ Hc1).
Qed.

Lemma failure_clears_promise_then_retry_witness :
  ∃ w1, step (Resume 0) world_rejected = Some w1 ∧
    returned w1 = [] ++ [(0, Threw "ECONNREFUSED"%string)] ∧
    heap w1 !! 0 = Some (mkCache None None) ∧
    driver w1 = driver world_rejected ∧
    (@None Handle = None →
     ∃ w2, step (Call 0) w1 = Some w2 ∧
       driver w2 = driver w1 ++ [mkConnect demo_uri (mkOptions false) Pending] ∧
       promise_at w2 0 = Some (Some (connect_count w1)) ∧
       tasks w2 = tasks w1 ++ [mkTask (issued w1) 0 (Some (connect_count w1))]).
Proof.
  apply (failure_clears_promise_then_retry 0 0 world_rejected
           (mkTask 0 0 (Some 0)) "ECONNREFUSED"%string (mkModule demo_uri 0)
           (mkCache None (Some 0))); reflexivity.
Defined.

(** C4.  Once the driver has rejected its [p]-th connect with [E], every
    activation that awaits promise [p], whenever it arrived and whatever
    happened in between, is resumed by throwing exactly [E]: the promise
    returned by [connectDB] is rejected with the driver's own error. *)
Theorem rejection_reaches_every_waiter
    (p : PromiseId) (E : Error) (w w1 w2 : World) (evs : list Event)
    (i : nat) (t : Task) :
  step (Settle p (inr E)) w = Some w1 →
  run evs w1 = Some w2 →
  tasks w2 !! i = Some t →
  task_awaits t = Some p →
  ∃ w3, step (Resume i) w2 = Some w3 ∧
    returned w3 = returned w2 ++ [(task_caller t, Threw E)].
Proof.
  intros Hs Hrun Ht Hp.
  assert (H1 : promise_state w1 p = Some (Rejected E)).
  { simpl in Hs. apply settle_inv in Hs as (uri & o & Hq & ->).
    unfold promise_state; simpl.
    rewrite list_lookup_insert_eq by (by apply lookup_lt_Some in Hq). done. }
  assert (H2 : promise_state w2 p = Some (Rejected E)).
  { by apply (promise_state_run evs w1 w2 p _ Hrun H1). }
  assert (Hr : await_result w2 (task_awaits t) = Some (inr E)).
  { rewrite Hp. simpl. by rewrite H2. }
  rewrite (resume_rejected i w2 t E Ht Hr). eexists. split; reflexivity.
Qed.

Lemma rejection_reaches_every_waiter_witness :
  ∃ w3, step (Resume 1) (world_waiting 3 (Rejected "ETIMEDOUT")) = Some w3 ∧
    returned w3 =
      returned (world_waiting 3 (Rejected "ETIMEDOUT")) ++ [(1, Threw "ETIMEDOUT"%string)].
Proof.
  apply (rejection_reaches_every_waiter 0 "ETIMEDOUT"%string
           (world_waiting 2 Pending) (world_waiting 2 (Rejected "ETIMEDOUT"))
           (world_waiting 3 (Rejected "ETIMEDOUT")) [Call 0] 1 (mkTask 1 0 (Some 0)));
    reflexivity.
Defined.

(** C5.  With [process.env.MONGODB_URI] undefined or empty, evaluating
    the module throws the error asking to define the variable, before
    anything else happens: the process is left as it was, with no module
    instance (so no [connectDB] to call) and no invocation of the driver.
    The check belongs to the module body only: [connectDB] itself, called
    on a live cache, always reaches its [return] or its [await]. *)
Theorem missing_uri_is_fatal_at_startup (env : option string) (w : World) :
  env = None ∨ env = Some ""%string →
  module_init env w = inl missing_uri_message ∧
  String.prefix "Please define the MONGODB_URI" missing_uri_message = true ∧
  step (Import env) w = Some w ∧
  (∀ evs, run (Import env :: evs) w = run evs w) ∧
  (∀ m, is_Some (heap w !! cached m) → is_Some (connectDB_call m w)).
Proof.
  intros Henv.
  assert (E : module_init env w = inl missing_uri_message)
    by (by destruct Henv as [->| ->]).
  split; [done|]. split; [done|]. split; [by simpl; rewrite E|].
  split; [by intros evs; simpl; rewrite E|].
  intros m [c Hc].
  destruct (conn c) as [h|] eqn:Hh.
  - rewrite (call_connected m w c h Hc Hh). by eexists.
  - destruct (promise c) as [p|] eqn:Hp.
    + rewrite (call_pending m w c p Hc Hh Hp). by eexists.
    + rewrite (call_fresh m w c Hc Hh Hp). by eexists.
Qed.

Lemma missing_uri_is_fatal_at_startup_witness :
  module_init (Some ""%string) World0 = inl missing_uri_message ∧
  String.prefix "Please define the MONGODB_URI" missing_uri_message = true ∧
  step (Import (Some ""%string)) World0 = Some World0 ∧
  (∀ evs, run (Import (Some ""%string) :: evs) World0 = run evs World0) ∧
  (∀ m, is_Some (heap World0 !! cached m) → is_Some (connectDB_call m World0)).
Proof.
  apply (missing_uri_is_fatal_at_startup (Some ""%string) World0).
  right. reflexivity.
Defined.

(** C7.  Whenever a call to [connectDB] makes the driver's log grow, the
    new entry is one invocation of [mongoose.connect] with the URI the
    module read from the environment and with [bufferCommands: false]. *)
Theorem connect_gets_uri_and_no_buffering
    (env : option string) (w0 w1 w w' : World) (m : Module) (s : Suspend) :
  module_init env w0 = inr (m, w1) →
  connectDB_call m w = Some (s, w') →
  driver w' ≠ driver w →
  ∃ uri, env = Some uri ∧
    driver w' = driver w ++ [mkConnect uri (mkOptions false) Pending].
Proof.
  intros Hinit Hcall Hne.
  assert (Hu : env = Some (MONGODB_URI m)).
  { destruct (module_init_cases env w0) as [[E _]|(uri & -> & _ & E)]; [congruence|].
    destruct (global_mongoose w0); rewrite E in Hinit; by inversion Hinit. }
  exists (MONGODB_URI m). split; [done|].
  apply call_cases in Hcall
    as (c & Hl & [(h & _ & _ & ->)|[(p & _ & _ & _ & ->)|(_ & _ & _ & ->)]]);
    done.
Qed.

Lemma connect_gets_uri_and_no_buffering_witness :
  ∃ uri, Some demo_uri = Some uri ∧
    driver (start_attempt (mkModule demo_uri 0) world_loaded) =
    driver world_loaded ++ [mkConnect uri (mkOptions false) Pending].
Proof.
  apply (connect_gets_uri_and_no_buffering (Some demo_uri) World0
           (mkWorld [mkCache None None] (Some 0) [] [] [] [] 0)
           world_loaded _ (mkModule demo_uri 0) (Await (Some 0))).
  - reflexivity.
  - reflexivity.
  - discriminate.
Defined.

(** C8.  The continuation of a failed attempt writes one field only: in
    the cache of the resumed activation [promise] becomes null and [conn]
    keeps its value, so a null handle remains null; every other cache
    object, the slot [global.mongoose], the module instances and the
    driver's log are untouched. *)
Theorem failed_attempt_only_clears_promise
    (i : nat) (w w' : World) (t : Task) (e : Error) :
  tasks w !! i = Some t →
  await_result w (task_awaits t) = Some (inr e) →
  step (Resume i) w = Some w' →
  (∀ l, conn_at w' l = conn_at w l) ∧
  (conn_at w (task_cached t) = Some None → conn_at w' (task_cached t) = Some None) ∧
  (∀ c, heap w !! task_cached t = Some c →
        heap w' !! task_cached t = Some (mkCache (conn c) None)) ∧
  (∀ l, l ≠ task_cached t → heap w' !! l = heap w !! l) ∧
  driver w' = driver w ∧
  global_mongoose w' = global_mongoose w ∧
  modules w' = modules w.
Proof.
  intros Ht Hr Hstep.
  rewrite (resume_rejected i w t e Ht Hr) in Hstep. inversion Hstep; subst w'.
  change (heap (add_returned _ _)) with (heap (set_promise (task_cached t) None w)).
  assert (Hconn : ∀ l, conn_at (set_promise (task_cached t) None w) l = conn_at w l).
  { intros l. unfold conn_at. rewrite lookup_set_promise.
    case_decide; [|done]. by destruct (heap w !! l). }
  unfold conn_at in *.
  change (heap (add_returned _ _)) with (heap (set_promise (task_cached t) None w)).
  split; [done|]. split; [by rewrite Hconn|].
  split. { intros c Hc. rewrite lookup_set_promise, decide_True by done.
           by rewrite Hc. }
  split. { intros l Hl. by rewrite lookup_set_promise, decide_False. }
  done.
Qed.

Lemma failed_attempt_only_clears_promise_witness :
  ∃ w', step (Resume 0) world_rejected = Some w' ∧
    (∀ l, conn_at w' l = conn_at world_rejected l) ∧
    (conn_at world_rejected 0 = Some None → conn_at w' 0 = Some None) ∧
    (∀ c, heap world_rejected !! 0 = Some c → heap w' !! 0 = Some (mkCache (conn c) None)) ∧
    (∀ l, l ≠ 0 → heap w' !! l = heap world_rejected !! l) ∧
    driver w' = driver world_rejected ∧
    global_mongoose w' = global_mongoose world_rejected ∧
    modules w' = modules world_rejected.
Proof.
  eexists. split; [reflexivity|].
  apply (failed_attempt_only_clears_promise 0 world_rejected _
           (mkTask 0 0 (Some 0)) "ECONNREFUSED"%string); reflexivity.
Defined.

(** C9.  A promise stored in [cached.promise] stays there through every
    event other than the continuation of a failed attempt on that cache;
    in particular the continuation of a successful attempt stores the
    handle and leaves [cached.promise] pointing at the promise it held,
    which, when it is the awaited one, is fulfilled with that handle. *)
Theorem promise_cleared_only_by_failure
    (ev : Event) (w w' : World) (l : loc) (p : PromiseId) :
  step ev w = Some w' →
  promise_at w l = Some (Some p) →
  (promise_at w' l = Some (Some p) ∨ failure_path ev w l) ∧
  (∀ i t v, ev = Resume i → tasks w !! i = Some t → task_cached t = l →
     await_result w (task_awaits t) = Some (inl v) →
     promise_at w' l = Some (Some p) ∧ conn_at w' l = Some v ∧
     (task_awaits t = Some p →
      ∃ h, v = Some h ∧ promise_state w' p = Some (Fulfilled h))).
Proof.
  unfold promise_at, conn_at. intros Hstep Hp.
  destruct (heap w !! l) as [c|] eqn:Hl; [|discriminate].
  simpl in Hp. assert (Hpc : promise c = Some p) by congruence. clear Hp.
  destruct (step_cache ev w w' l c Hstep Hl) as (c' & Hl' & Heff).
  rewrite Hl'; simpl. split.
  - destruct ev as [env|j|q r|i]; simpl in Heff.
    + subst. left. by rewrite Hpc.
    + destruct Heff as [->|(_ & -> & _)]; [left; by rewrite Hpc|by simpl in Hpc].
    + subst. left. by rewrite Hpc.
    + destruct Heff as [(_ & ->)|(Hev & t & r & Ht & Hr & ->)]; [left; by rewrite Hpc|].
      destruct r as [v|e]; simpl; [left; by rewrite Hpc|].
      right. exists i, t, e. rewrite Ht in Hev. simpl in Hev.
      repeat split; congruence.
  - intros i t v -> Ht Htl Hr. simpl in Heff.
    destruct Heff as [(Hev & _)|(_ & t' & r & Ht' & Hr' & ->)].
    + rewrite Ht in Hev. simpl in Hev. congruence.
    + rewrite Ht in Ht'. inversion Ht'; subst t'. rewrite Hr in Hr'.
      inversion Hr'; subst r. simpl. rewrite Hpc.
      split; [done|]. split; [done|]. intros Ha. rewrite Ha in Hr. simpl in Hr.
      destruct (promise_state w p) as [[|h|]|] eqn:Hs; inversion Hr; subst v.
      exists h. split; [done|].
      by apply (promise_state_step (Resume i) w w' p _ Hstep Hs).
Qed.

Lemma promise_cleared_only_by_failure_witness :
  ∃ w', step (Resume 0) (world_waiting 1 (Fulfilled 7)) = Some w' ∧
    (promise_at w' 0 = Some (Some 0) ∨
     failure_path (Resume 0) (world_waiting 1 (Fulfilled 7)) 0) ∧
    (∀ i t v, Resume 0 = Resume i →
       tasks (world_waiting 1 (Fulfilled 7)) !! i = Some t → task_cached t = 0 →
       await_result (world_waiting 1 (Fulfilled 7)) (task_awaits t) = Some (inl v) →
       promise_at w' 0 = Some (Some 0) ∧ conn_at w' 0 = Some v ∧
       (task_awaits t = Some 0 →
        ∃ h, v = Some h ∧ promise_state w' 0 = Some (Fulfilled h))).
Proof.
  eexists. split; [reflexivity|].
  apply (promise_cleared_only_by_failure (Resume 0) (world_waiting 1 (Fulfilled 7)) _ 0 0);
    reflexivity.
Defined.

(** C10.  Whenever a call or a continuation of [connectDB] resolves the
    returned promise, the value is a handle, never null, and it is the
    handle stored in [cached.conn] of the activation's cache at that
    moment. *)
Theorem resolved_result_is_cached_conn
    (ev : Event) (w w' : World) (l : loc) (caller : nat) (v : option Handle) :
  wf w →
  step ev w = Some w' →
  event_cache w ev = Some l →
  returned w' = returned w ++ [(caller, Resolved v)] →
  ∃ h, v = Some h ∧ conn_at w' l = Some (Some h).
Proof.
  intros Hwf Hstep Hev Hret. unfold conn_at.
  destruct ev as [env|j|q r|i]; try discriminate.
  - apply step_call_inv in Hstep as (m & s & w1 & Hj & Hc & ->).
    simpl in Hev. rewrite Hj in Hev. simpl in Hev. inversion Hev; subst l.
    apply call_cases in Hc
      as (c & Hl & [(h & Hh & -> & ->)|[(p & _ & _ & -> & ->)|(_ & _ & -> & ->)]]).
    + simpl in Hret. apply app_inv_head in Hret. inversion Hret; subst.
      exists h. split; [done|]. simpl. by rewrite Hl; simpl; rewrite Hh.
    + simpl in Hret. apply (f_equal length) in Hret.
      rewrite length_app in Hret; simpl in Hret; lia.
    + simpl in Hret. apply (f_equal length) in Hret.
      rewrite length_app in Hret; simpl in Hret; lia.
  - apply step_resume_inv in Hstep as (t & r & o & w1 & Hi & Hr & Hk & ->).
    simpl in Hev. rewrite Hi in Hev. simpl in Hev. inversion Hev; subst l.
    apply resume_cases in Hk as [(v' & -> & -> & -> & [c Hc])|(e & -> & -> & ->)];
      simpl in Hret; apply app_inv_head in Hret; inversion Hret; subst.
    destruct (wf_tasks w Hwf t) as (_ & p & Hp & _).
    { apply list_elem_of_lookup; eauto. }
    rewrite Hp in Hr. simpl in Hr.
    destruct (promise_state w p) as [[|h|]|]; inversion Hr; subst v.
    exists h. split; [done|].
    change (heap (add_returned _ _)) with (heap (set_conn (task_cached t) (Some h) w)).
    rewrite lookup_set_conn, decide_True by done. by rewrite Hc.
Qed.

Lemma resolved_result_is_cached_conn_witness :
  ∃ w', step (Resume 0) (world_waiting 1 (Fulfilled 7)) = Some w' ∧
    ∃ h, Some 7 = Some h ∧ conn_at w' 0 = Some (Some h).
Proof.
  eexists. split; [reflexivity|].
  apply (resolved_result_is_cached_conn (Resume 0) (world_waiting 1 (Fulfilled 7)) _ 0 0 (Some 7)).
  - apply reachable_wf.
    exists [Import (Some demo_uri); Call 0; Settle 0 (inl 7)]. reflexivity.
  - reflexivity.
  - reflexivity.
  - reflexivity.
Defined.

(** * Further properties of the module body and of connectDB *)

Lemma world_connected_reachable : reachable world_connected.
Proof.
  exists [Import (Some demo_uri); Call 0; Settle 0 (inl 7); Resume 0]. reflexivity.
Qed.

Lemma world_stale_reachable : reachable world_stale.
Proof.
  exists [Import (Some demo_uri); Call 0; Settle 0 (inr "ECONNREFUSED"%string);
          Call 0; Resume 0; Call 0].
  reflexivity.
Qed.

(** X1.  Once the driver has fulfilled its [p]-th connect with handle
    [h], every activation that awaits promise [p], whenever it arrived and
    whatever happened in between, is resumed with [h]: it stores [h] in
    [cached.conn] and resolves the caller's promise with it.  All callers
    that shared the attempt get the same handle. *)
Theorem fulfilment_reaches_every_waiter
    (p : PromiseId) (h : Handle) (w w1 w2 : World) (evs : list Event)
    (i : nat) (t : Task) :
  wf w →
  step (Settle p (inl h)) w = Some w1 →
  run evs w1 = Some w2 →
  tasks w2 !! i = Some t →
  task_awaits t = Some p →
  ∃ w3, step (Resume i) w2 = Some w3 ∧
    returned w3 = returned w2 ++ [(task_caller t, Resolved (Some h))] ∧
    conn_at w3 (task_cached t) = Some (Some h).
Proof.
  intros Hwf Hs Hrun Ht Hp.
  pose proof (wf_run evs w1 w2 (wf_step _ _ _ Hwf Hs) Hrun) as Hwf2.
  assert (H1 : promise_state w1 p = Some (Fulfilled h)).
  { simpl in Hs. apply settle_inv in Hs as (uri & o & Hq & ->).
    unfold promise_state; simpl.
    rewrite list_lookup_insert_eq by (by apply lookup_lt_Some in Hq). done. }
  assert (H2 : promise_state w2 p = Some (Fulfilled h)).
  { by apply (promise_state_run evs w1 w2 p _ Hrun H1). }
  assert (Hr : await_result w2 (task_awaits t) = Some (inl (Some h))).
  { rewrite Hp. simpl. by rewrite H2. }
  destruct (wf_tasks w2 Hwf2 t) as [Hlt _].
  { apply list_elem_of_lookup; eauto. }
  apply lookup_lt_is_Some_2 in Hlt as [c Hc].
  rewrite (resume_fulfilled i w2 t (Some h) c Ht Hr Hc).
  eexists. split; [reflexivity|]. split; [done|].
  unfold conn_at.
  change (heap (add_returned _ _)) with (heap (set_conn (task_cached t) (Some h) w2)).
  rewrite lookup_set_conn, decide_True by done. by rewrite Hc.
Qed.

Lemma fulfilment_reaches_every_waiter_witness :
  ∃ w3, step (Resume 2) (world_waiting 3 (Fulfilled 7)) = Some w3 ∧
    returned w3 = returned (world_waiting 3 (Fulfilled 7)) ++ [(2, Resolved (Some 7))] ∧
    conn_at w3 0 = Some (Some 7).
Proof.
  apply (fulfilment_reaches_every_waiter 0 7
           (world_waiting 2 Pending) (world_waiting 2 (Fulfilled 7))
           (world_waiting 3 (Fulfilled 7)) [Call 0] 2 (mkTask 2 0 (Some 0)));
    try reflexivity.
  apply reachable_wf. exists [Import (Some demo_uri); Call 0; Call 0]. reflexivity.
Defined.

Lemma window_connected_returns (evs : list Event) (w w' : World) (l : loc)
    (h : Handle) (x : option PromiseId) :
  Forall (λ m, cached m = l) (modules w) →
  heap w !! l = Some (mkCache (Some h) x) →
  forallb in_window evs = true →
  run evs w = Some w' →
  ∃ rs, returned w' = returned w ++ rs ∧ length rs = calls evs ∧
        Forall (λ r, r.2 = Resolved (Some h)) rs.
Proof.
  revert w. induction evs as [|ev evs IH]; simpl; intros w Hms Hl Hwin Hrun.
  - inversion Hrun; subst. exists []. by rewrite app_nil_r.
  - apply andb_prop in Hwin as [Hev Hwin].
    run_next Hrun w1 Hstep.
    destruct ev as [env|j|q r|i]; try discriminate.
    + destruct (modules w !! j) as [m|] eqn:Hj; [|by simpl in Hstep; rewrite Hj in Hstep].
      assert (cached m = l) as Hml by (eapply (Forall_lookup_1 _ _ _ _ Hms); eauto).
      rewrite (step_call_connected j w m _ h Hj) in Hstep by (by rewrite ?Hml).
      inversion Hstep; subst w1; clear Hstep.
      set (w1 := add_returned _ _) in Hrun.
      destruct (IH w1 Hms Hl Hwin Hrun) as (rs & Hr & Hn & Hall).
      exists ((issued w, Resolved (Some h)) :: rs).
      subst w1; simpl in Hr. rewrite Hr, <- app_assoc.
      split; [done|]. unfold calls in *; simpl. split; [by rewrite Hn|].
      by constructor.
    + pose proof (settle_frame _ _ _ _ Hstep) as (Eh & _ & Ec & Et & Er & Em).
      rewrite <- Em in Hms. rewrite <- Eh in Hl.
      destruct (IH _ Hms Hl Hwin Hrun) as (rs & Hr & Hn & Hall).
      exists rs. rewrite Hr, Er. by unfold calls in *.
Qed.

(** X2.  With a handle cached, [connectDB] only reads: through any number
    of calls (the driver may settle promises meanwhile) every call is
    answered at once with the cached handle, nobody is suspended, the
    driver is not invoked and no cache object changes. *)
Theorem connected_calls_only_read
    (evs : list Event) (w w' : World) (l : loc) (h : Handle) (x : option PromiseId) :
  wf w →
  global_mongoose w = Some l →
  heap w !! l = Some (mkCache (Some h) x) →
  forallb in_window evs = true →
  run evs w = Some w' →
  heap w' = heap w ∧ connect_count w' = connect_count w ∧ tasks w' = tasks w ∧
  ∃ rs, returned w' = returned w ++ rs ∧ length rs = calls evs ∧
        Forall (λ r, r.2 = Resolved (Some h)) rs.
Proof.
  intros Hwf Hg Hl Hwin Hrun.
  pose proof (wf_shared_cache w l Hwf Hg) as Hms.
  destruct (window_connected evs w w' l h x Hms Hl Hwin Hrun) as (Hh & Hc & Ht).
  repeat split; try done.
  exact (window_connected_returns evs w w' l h x Hms Hl Hwin Hrun).
Qed.

Lemma connected_calls_only_read_witness :
  ∃ w', run [Call 0; Call 0; Call 0] world_connected = Some w' ∧
    heap w' = heap world_connected ∧
    connect_count w' = connect_count world_connected ∧
    tasks w' = tasks world_connected ∧
    ∃ rs, returned w' = returned world_connected ++ rs ∧ length rs = 3 ∧
          Forall (λ r, r.2 = Resolved (Some 7)) rs.
Proof.
  eexists. split; [reflexivity|].
  apply (connected_calls_only_read [Call 0; Call 0; Call 0] world_connected _ 0 7 (Some 0));
    try reflexivity.
  exact (reachable_wf _ world_connected_reachable).
Defined.

(** X3.  Connected is terminal: once a handle is cached, no run of the
    process, under any schedule and whatever the driver does, brings
    [cached.conn] back to null. *)
Theorem connected_is_terminal
    (evs : list Event) (w w' : World) (l : loc) (h : Handle) :
  wf w →
  run evs w = Some w' →
  conn_at w l = Some (Some h) →
  ∃ h', conn_at w' l = Some (Some h').
Proof.
  revert w h. induction evs as [|ev evs IH]; simpl; intros w h Hwf Hrun Hc.
  - inversion Hrun; subst. eauto.
  - run_next Hrun w1 E.
    destruct (conn_stays_connected ev w w1 l h Hwf E Hc) as [h1 Hc1].
    eauto using wf_step.
Qed.

Lemma connected_is_terminal_witness :
  ∃ w', run [Call 0; Import (Some replica_uri); Call 1] world_connected = Some w' ∧
    ∃ h', conn_at w' 0 = Some (Some h').
Proof.
  eexists. split; [reflexivity|].
  apply (connected_is_terminal [Call 0; Import (Some replica_uri); Call 1]
           world_connected _ 0 7).
  - exact (reachable_wf _ world_connected_reachable).
  - reflexivity.
  - reflexivity.
Defined.

(** X4.  If the driver resolves every connect with one and the same
    instance [h] (in the log so far and in every later settlement), a
    cached handle never changes: under every schedule, with failures and
    retries in between, [cached.conn] stays [h]. *)
Theorem single_instance_keeps_conn
    (evs : list Event) (w w' : World) (l : loc) (h : Handle) :
  wf w →
  resolves_with h w →
  Forall (settles_with h) evs →
  run evs w = Some w' →
  conn_at w l = Some (Some h) →
  conn_at w' l = Some (Some h) ∧ resolves_with h w'.
Proof.
  revert w. induction evs as [|ev evs IH]; simpl; intros w Hwf Hres Hall Hrun Hc.
  - by inversion Hrun; subst.
  - run_next Hrun w1 E.
    apply Forall_cons in Hall as [Hev Hall].
    destruct (one_instance_step ev w w1 l h Hwf Hres Hev E) as [Hres1 Hc1].
    eauto using wf_step.
Qed.

Lemma single_instance_keeps_conn_witness :
  ∃ w', run [Import (Some replica_uri); Call 1; Call 0] world_connected = Some w' ∧
    conn_at w' 0 = Some (Some 7) ∧ resolves_with 7 w'.
Proof.
  eexists. split; [reflexivity|].
  apply (single_instance_keeps_conn [Import (Some replica_uri); Call 1; Call 0]
           world_connected _ 0 7).
  - exact (reachable_wf _ world_connected_reachable).
  - intros k v Hk Hv. apply list_elem_of_singleton in Hk. subst k.
    simpl in Hv. congruence.
  - repeat constructor; intros p v Hev; discriminate.
  - reflexivity.
  - reflexivity.
Defined.

Lemma step_connect_count (ev : Event) (w w' : World) :
  step ev w = Some w' →
  connect_count w' = connect_count w ∨
  (is_call ev = true ∧ connect_count w' = S (connect_count w)).
Proof.
  intros H. destruct ev as [env|j|q r|i].
  - apply import_frame in H as (E & _). left. unfold connect_count. by rewrite E.
  - apply step_call_inv in H as (m & s & w1 & Hj & Hc & ->).
    apply call_cases in Hc
      as (c & Hl & [(h & _ & -> & ->)|[(p & _ & _ & -> & ->)|(_ & _ & -> & ->)]]);
      [by left|by left|].
    right. split; [done|]. unfold connect_count; simpl. rewrite length_app; simpl; lia.
  - apply settle_frame in H as (_ & _ & E & _). by left.
  - apply step_resume_inv in H as (t & r & o & w1 & Hi & Hr & Hk & ->).
    apply resume_cases in Hk as [(v & -> & -> & -> & _)|(e & -> & -> & ->)]; by left.
Qed.

(** X5.  [connectDB] never connects on its own and never twice for one
    call: over any run, the number of new invocations of
    [mongoose.connect] is at most the number of calls of [connectDB] in
    it; module evaluations, driver settlements and continuations invoke
    nothing. *)
Theorem connects_bounded_by_calls (evs : list Event) (w w' : World) :
  run evs w = Some w' →
  connect_count w' ≤ connect_count w + calls evs.
Proof.
  revert w. induction evs as [|ev evs IH]; simpl; intros w Hrun.
  - inversion Hrun; subst. lia.
  - run_next Hrun w1 E. specialize (IH w1 Hrun).
    unfold calls in *; simpl.
    destruct (step_connect_count ev w w1 E) as [Hc|[Hev Hc]].
    + rewrite Hc in IH. destruct (is_call ev); simpl; lia.
    + rewrite Hev; simpl. lia.
Qed.

Lemma connects_bounded_by_calls_witness :
  ∃ w', run (stale_waiter_calls ++ stale_waiter_settles) World0 = Some w' ∧
    connect_count w' ≤ connect_count World0 + calls (stale_waiter_calls ++ stale_waiter_settles).
Proof.
  eexists. split; [vm_compute; reflexivity|].
  apply (connects_bounded_by_calls (stale_waiter_calls ++ stale_waiter_settles) World0).
  vm_compute; reflexivity.
Defined.

(** All that a process whose driver has never rejected has done: no
    attempt yet, or one attempt whose promise the shared cache holds. *)
Lemma no_reject_step (ev : Event) (w w' : World) :
  wf w → no_reject ev = true → step ev w = Some w' →
  (∀ k e, k ∈ driver w → call_state k ≠ Rejected e) →
  (connect_count w = 0 ∨
   (connect_count w = 1 ∧ ∀ l, global_mongoose w = Some l → promise_at w l = Some (Some 0))) →
  (∀ k e, k ∈ driver w' → call_state k ≠ Rejected e) ∧
  (connect_count w' = 0 ∨
   (connect_count w' = 1 ∧ ∀ l, global_mongoose w' = Some l → promise_at w' l = Some (Some 0))).
Proof.
  intros Hwf Hev Hstep Hnr Hk.
  destruct ev as [env|j|q r|i].
  - pose proof (import_frame _ _ _ Hstep) as (Ed & _ & _ & Hh).
    split; [by rewrite Ed|].
    unfold connect_count in *. rewrite Ed.
    destruct Hk as [Hk|[Hk Hp]]; [by left|right]. split; [done|].
    destruct (driver w) as [|k ds] eqn:Hd; [done|].
    destruct (wf_driver w Hwf k) as (_ & m & Hm & _); [rewrite Hd; by left|].
    destruct (wf_modules w Hwf m Hm) as [Hg _].
    assert (Hg' : global_mongoose w' = global_mongoose w).
    { simpl in Hstep.
      destruct (module_init_cases env w) as [[E _]|(uri & -> & Hne & E)].
      - rewrite E in Hstep. by inversion Hstep.
      - rewrite Hg in E. rewrite E in Hstep. by inversion Hstep. }
    intros l Hl. rewrite Hg' in Hl. specialize (Hp l Hl).
    unfold promise_at in *.
    destruct (heap w !! l) as [c|] eqn:Hc; [|discriminate].
    by rewrite (Hh l c Hc).
  - apply step_call_inv in Hstep as (m & s & w1 & Hj & Hc & ->).
    assert (Hin : m ∈ modules w) by (apply list_elem_of_lookup; eauto).
    destruct (wf_modules w Hwf m Hin) as [Hg _].
    apply call_cases in Hc
      as (c & Hl & [(h & _ & -> & ->)|[(p & _ & _ & -> & ->)|(Hn & Hp & -> & ->)]]);
      [by split|by split|].
    destruct Hk as [Hk|[Hk Hpr]].
    + split.
      * intros k e [Hin'|Hin']%elem_of_app; [by apply Hnr|].
        apply list_elem_of_singleton in Hin' as ->. done.
      * right. unfold connect_count in *; simpl. rewrite length_app, Hk. split; [done|].
        intros l Hgl. change (global_mongoose (set_tasks _ _)) with (global_mongoose w) in Hgl.
        rewrite Hg in Hgl. inversion Hgl; subst l.
        unfold promise_at.
        change (heap (set_tasks _ _)) with (heap (start_attempt m w)).
        rewrite (heap_start_attempt m w c Hl). unfold connect_count. by rewrite Hk.
    + specialize (Hpr _ Hg). unfold promise_at in Hpr. rewrite Hl in Hpr.
      simpl in Hpr. congruence.
  - destruct r as [v|e]; [|discriminate].
    pose proof (settle_frame _ _ _ _ Hstep) as (Eh & Eg & Ec & _).
    split.
    + simpl in Hstep. apply settle_inv in Hstep as (uri & o & Hq & ->). simpl.
      intros k e [n Hn]%list_elem_of_lookup.
      rewrite list_lookup_insert in Hn. case_decide.
      * by inversion Hn.
      * apply Hnr. apply list_elem_of_lookup; eauto.
    + unfold promise_at. by rewrite Ec, Eg, Eh.
  - apply step_resume_inv in Hstep as (t & r & o & w1 & Hi & Hr & Hc & ->).
    apply resume_cases in Hc as [(v & -> & -> & -> & _)|(e & -> & -> & ->)].
    + split; [done|].
      destruct Hk as [Hk|[Hk Hpr]]; [by left|right]. split; [done|].
      intros l Hgl. specialize (Hpr l Hgl). unfold promise_at in *.
      change (heap (add_returned _ _)) with (heap (set_conn (task_cached t) v w)).
      rewrite lookup_set_conn. case_decide; [|done].
      by destruct (heap w !! l).
    + exfalso. destruct (task_awaits t) as [p|]; [|discriminate].
      simpl in Hr. unfold promise_state in Hr.
      destruct (driver w !! p) as [k|] eqn:Hp; [|discriminate].
      destruct (call_state k) eqn:Hs; simpl in Hr; inversion Hr; subst.
      apply (Hnr k e); [|done]. apply list_elem_of_lookup; eauto.
Qed.

Lemma no_reject_run (evs : list Event) (w w' : World) :
  wf w → forallb no_reject evs = true → run evs w = Some w' →
  (∀ k e, k ∈ driver w → call_state k ≠ Rejected e) →
  (connect_count w = 0 ∨
   (connect_count w = 1 ∧ ∀ l, global_mongoose w = Some l → promise_at w l = Some (Some 0))) →
  connect_count w' ≤ 1.
Proof.
  revert w. induction evs as [|ev evs IH]; simpl; intros w Hwf Hall Hrun Hnr Hk.
  - inversion Hrun; subst. destruct Hk as [->|[-> _]]; lia.
  - apply andb_prop in Hall as [Hev Hall]. run_next Hrun w1 E.
    destruct (no_reject_step ev w w1 Hwf Hev E Hnr Hk) as [Hnr1 Hk1].
    eauto using wf_step.
Qed.

(** X6.  As long as the driver rejects nothing, the whole process makes
    at most one invocation of [mongoose.connect], under every schedule of
    module evaluations, calls, fulfilments and continuations. *)
Theorem one_connect_without_rejection (evs : list Event) (w : World) :
  forallb no_reject evs = true →
  run evs World0 = Some w →
  connect_count w ≤ 1.
Proof.
  intros Hall Hrun.
  apply (no_reject_run evs World0 w wf_World0 Hall Hrun).
  - intros k e Hk. by apply elem_of_nil in Hk.
  - by left.
Qed.

Lemma one_connect_without_rejection_witness :
  run shared_run World0 = Some world_shared ∧ connect_count world_shared ≤ 1.
Proof.
  split; [vm_compute; reflexivity|].
  apply (one_connect_without_rejection shared_run world_shared).
  - reflexivity.
  - vm_compute; reflexivity.
Defined.

Lemma step_heap_shape (ev : Event) (w w' : World) :
  step ev w = Some w' →
  (length (heap w') = length (heap w) ∧ global_mongoose w' = global_mongoose w) ∨
  (global_mongoose w = None ∧ global_mongoose w' = Some (length (heap w)) ∧
   heap w' = heap w ++ [mkCache None None]).
Proof.
  intros H. destruct ev as [env|j|q r|i].
  - simpl in H.
    destruct (module_init_cases env w) as [[E _]|(uri & -> & Hne & E)].
    + rewrite E in H. inversion H; subst. by left.
    + destruct (global_mongoose w) as [l|] eqn:Hg; rewrite E in H; inversion H; subst.
      * left. by simpl.
      * right. by simpl.
  - left. apply step_call_inv in H as (m & s & w1 & Hj & Hc & ->).
    apply call_cases in Hc
      as (c & Hl & [(h & _ & -> & ->)|[(p & _ & _ & -> & ->)|(_ & _ & -> & ->)]]);
      simpl; by rewrite ?length_alter.
  - left. apply settle_frame in H as (-> & -> & _). done.
  - left. apply step_resume_inv in H as (t & r & o & w1 & Hi & Hr & Hk & ->).
    apply resume_cases in Hk as [(v & -> & -> & -> & _)|(e & -> & -> & ->)];
      simpl; by rewrite length_alter.
Qed.

Lemma one_cache_run (evs : list Event) (w w' : World) :
  run evs w = Some w' →
  (global_mongoose w = None ∧ heap w = []) ∨
  (global_mongoose w = Some 0 ∧ length (heap w) = 1) →
  (global_mongoose w' = None ∧ heap w' = []) ∨
  (global_mongoose w' = Some 0 ∧ length (heap w') = 1).
Proof.
  revert w. induction evs as [|ev evs IH]; simpl; intros w Hrun Hw.
  - by inversion Hrun; subst.
  - run_next Hrun w1 E. apply (IH w1 Hrun).
    destruct (step_heap_shape ev w w1 E) as [[Hl Hg]|(Hg & Hg1 & Hh)].
    + destruct Hw as [[Hn He]|[Hs Hlen]].
      * left. rewrite Hg. split; [done|]. rewrite He in Hl.
        by apply length_zero_iff_nil.
      * right. by rewrite Hg, Hl.
    + destruct Hw as [[Hn He]|[Hs Hlen]]; [|congruence].
      right. rewrite Hg1, Hh, He. done.
Qed.

(** X7.  However often the module is evaluated, the process holds at most
    one cache object: none before the first successful evaluation, exactly
    one afterwards, to which [global.mongoose] and the [cached] binding of
    every module instance refer.  Re-evaluation never allocates a second
    cache. *)
Theorem reloads_never_add_a_cache (w : World) :
  reachable w →
  ((global_mongoose w = None ∧ heap w = [] ∧ modules w = []) ∨
   (global_mongoose w = Some 0 ∧ length (heap w) = 1)) ∧
  ∀ m, m ∈ modules w → cached m = 0.
Proof.
  intros Hr. pose proof (reachable_wf w Hr) as Hwf. destruct Hr as [evs Hrun].
  assert (Hshape : (global_mongoose w = None ∧ heap w = []) ∨
                   (global_mongoose w = Some 0 ∧ length (heap w) = 1)).
  { apply (one_cache_run evs World0 w Hrun). by left. }
  split.
  - destruct Hshape as [[Hn He]|Hs]; [left|by right].
    split; [done|]. split; [done|].
    destruct (modules w) as [|m ms] eqn:Hm; [done|].
    destruct (wf_modules w Hwf m) as [Hg _]; [rewrite Hm; by left|]. congruence.
  - intros m Hm. destruct (wf_modules w Hwf m Hm) as [Hg _].
    destruct Hshape as [[Hn _]|[Hs _]]; congruence.
Qed.

Lemma reloads_never_add_a_cache_witness :
  ((global_mongoose world_reloaded = None ∧ heap world_reloaded = [] ∧
    modules world_reloaded = []) ∨
   (global_mongoose world_reloaded = Some 0 ∧ length (heap world_reloaded) = 1)) ∧
  ∀ m, m ∈ modules world_reloaded → cached m = 0.
Proof.
  apply (reloads_never_add_a_cache world_reloaded).
  exists [Import (Some demo_uri); Import None; Import (Some replica_uri)]. reflexivity.
Defined.

Lemma settle_connect_log (p : PromiseId) (r : Handle + Error) (w w' : World) :
  step (Settle p r) w = Some w' → connect_log w' = connect_log w.
Proof.
  simpl. intros (uri & o & Hp & ->)%settle_inv. unfold connect_log; simpl.
  rewrite list_fmap_insert. simpl. apply list_insert_id.
  by rewrite list_lookup_fmap, Hp.
Qed.

Lemma window_pending_log (evs : list Event) (w w' : World) (l : loc) (p : PromiseId) :
  Forall (λ m, cached m = l) (modules w) →
  heap w !! l = Some (mkCache None (Some p)) →
  forallb in_window evs = true →
  run evs w = Some w' →
  connect_log w' = connect_log w.
Proof.
  revert w. induction evs as [|ev evs IH]; simpl; intros w Hms Hl Hwin Hrun.
  - by inversion Hrun; subst.
  - apply andb_prop in Hwin as [Hev Hwin].
    run_next Hrun w1 Hstep.
    destruct ev as [env|j|q r|i]; try discriminate.
    + apply step_call_inv in Hstep as (m & s & w0 & Hj & Hc & ->).
      assert (cached m = l) as Hml by (eapply (Forall_lookup_1 _ _ _ _ Hms); eauto).
      rewrite (call_pending m w _ p) in Hc by (by rewrite ?Hml).
      inversion Hc; subst s w0; clear Hc.
      set (w1 := set_tasks _ _) in Hrun.
      by rewrite (IH w1 Hms Hl Hwin Hrun).
    + pose proof (settle_frame _ _ _ _ Hstep) as (Eh & _ & Ec & Et & Er & Em).
      rewrite <- Em in Hms. rewrite <- Eh in Hl.
      rewrite (IH _ Hms Hl Hwin Hrun). by apply (settle_connect_log q r).
Qed.

(** X8.  The first caller's URI wins.  When a call finds the shared cache
    empty and further calls follow before any continuation runs, through
    whichever module instance (a re-evaluated module may have read another
    URI), the window adds exactly one invocation of [mongoose.connect],
    made with the URI of the instance called first; the later callers join
    it and their own URI is never used. *)
Theorem first_caller_uri_wins
    (j : nat) (m : Module) (evs : list Event) (w w' : World) (l : loc) :
  wf w →
  global_mongoose w = Some l →
  heap w !! l = Some (mkCache None None) →
  modules w !! j = Some m →
  forallb in_window evs = true →
  run (Call j :: evs) w = Some w' →
  connect_log w' = connect_log w ++ [(MONGODB_URI m, mkOptions false)].
Proof.
  intros Hwf Hg Hl Hj Hwin Hrun.
  pose proof (wf_shared_cache w l Hwf Hg) as Hms.
  assert (cached m = l) as Hml by (eapply (Forall_lookup_1 _ _ _ _ Hms); eauto).
  subst l. cbn [run] in Hrun. rewrite (step_call_fresh j w m Hj Hl) in Hrun.
  cbn [mbind option_bind] in Hrun. set (w1 := set_tasks _ _) in Hrun.
  assert (Hl1 : heap w1 !! cached m = Some (mkCache None (Some (connect_count w)))).
  { change (heap w1) with (heap (start_attempt m w)).
    by rewrite (heap_start_attempt m w _ Hl). }
  rewrite (window_pending_log evs w1 w' (cached m) _ Hms Hl1 Hwin Hrun).
  unfold connect_log; subst w1; simpl. by rewrite fmap_app.
Qed.

Lemma first_caller_uri_wins_witness :
  ∃ w', run (Call 1 :: [Call 0; Call 1; Settle 0 (inl 7); Call 0]) world_reloaded = Some w' ∧
    connect_log w' = connect_log world_reloaded ++ [(replica_uri, mkOptions false)].
Proof.
  eexists. split; [reflexivity|].
  apply (first_caller_uri_wins 1 (mkModule replica_uri 0)
           [Call 0; Call 1; Settle 0 (inl 7); Call 0] world_reloaded _ 0);
    try reflexivity.
  apply reachable_wf.
  exists [Import (Some demo_uri); Import (Some replica_uri)]. reflexivity.
Defined.

Lemma settled_entry_step (ev : Event) (w w' : World) (k : ConnectCall) :
  step ev w = Some w' → k ∈ driver w → call_state k ≠ Pending → k ∈ driver w'.
Proof.
  intros H Hk Hs. destruct ev as [env|j|q r|i].
  - apply import_frame in H as (E & _). by rewrite E.
  - apply step_call_inv in H as (m & s & w1 & Hj & Hc & ->).
    apply call_cases in Hc
      as (c & Hl & [(h & _ & -> & ->)|[(p & _ & _ & -> & ->)|(_ & _ & -> & ->)]]);
      simpl; try done.
    apply elem_of_app; by left.
  - simpl in H. apply settle_inv in H as (uri & o & Hq & ->). simpl.
    apply list_elem_of_lookup in Hk as [n Hn].
    apply list_elem_of_lookup. exists n.
    rewrite list_lookup_insert_ne; [done|].
    intros ->. rewrite Hq in Hn. inversion Hn; subst k. by apply Hs.
  - apply step_resume_inv in H as (t & r & o & w1 & Hi & Hr & Hc & ->).
    by apply resume_cases in Hc as [(v & -> & -> & -> & _)|(e & -> & -> & ->)].
Qed.

Lemma from_driver_step (ev : Event) (w w' : World) (o : Outcome) :
  step ev w = Some w' → from_driver w o → from_driver w' o.
Proof.
  intros H. destruct o as [v|e]; simpl.
  - intros (h & -> & k & Hk & Hs). exists h. split; [done|]. exists k.
    split; [|done]. apply (settled_entry_step ev w w' k H Hk). by rewrite Hs.
  - intros (k & Hk & Hs). exists k.
    split; [|done]. apply (settled_entry_step ev w w' k H Hk). by rewrite Hs.
Qed.

Lemma await_from_driver (w : World) (p : PromiseId) (r : option Handle + Error) :
  await_result w (Some p) = Some r →
  from_driver w match r with inl v => Resolved v | inr e => Threw e end.
Proof.
  simpl. unfold promise_state.
  destruct (driver w !! p) as [k|] eqn:Hp; [|discriminate].
  assert (Hk : k ∈ driver w) by (apply list_elem_of_lookup; eauto).
  destruct (call_state k) as [|h|e] eqn:Hs; simpl; intros Hr; inversion Hr; subst;
    simpl; eauto.
Qed.

Lemma provenance_step (ev : Event) (w w' : World) :
  wf w → step ev w = Some w' →
  (∀ c o, (c, o) ∈ returned w → from_driver w o) →
  (∀ c h, c ∈ heap w → conn c = Some h → from_driver w (Resolved (Some h))) →
  (∀ c o, (c, o) ∈ returned w' → from_driver w' o) ∧
  (∀ c h, c ∈ heap w' → conn c = Some h → from_driver w' (Resolved (Some h))).
Proof.
  intros Hwf Hstep Hret Hheap.
  pose proof (λ o, from_driver_step ev w w' o Hstep) as Hmono.
  destruct ev as [env|j|q r|i].
  - pose proof (import_frame _ _ _ Hstep) as (_ & _ & Er & _).
    split; [intros c o; rewrite Er; eauto|].
    intros c h Hc Hh.
    destruct (step_heap_shape _ _ _ Hstep) as [[Hl Hg]|(_ & _ & Eh)].
    + simpl in Hstep.
      destruct (module_init_cases env w) as [[E _]|(uri & -> & Hne & E)].
      * rewrite E in Hstep. inversion Hstep; subst. eauto.
      * destruct (global_mongoose w); rewrite E in Hstep; inversion Hstep; subst;
          simpl in *; [eauto|].
        rewrite length_app in Hl; simpl in Hl; lia.
    + rewrite Eh in Hc. apply elem_of_app in Hc as [Hc|Hc]; [eauto|].
      apply list_elem_of_singleton in Hc as ->. discriminate.
  - apply step_call_inv in Hstep as (m & s & w1 & Hj & Hc & ->).
    apply call_cases in Hc
      as (c0 & Hl & [(h0 & Hh0 & -> & ->)|[(p & _ & _ & -> & ->)|(_ & _ & -> & ->)]]).
    + split; [|intros c h Hc Hh; apply Hmono; eauto].
      intros c o [Hin|Hin]%elem_of_app; [apply Hmono; eauto|].
      apply list_elem_of_singleton in Hin. inversion Hin; subst.
      apply Hmono. apply (Hheap c0); [|done]. apply list_elem_of_lookup; eauto.
    + split; [intros c o Hin; apply Hmono; eauto|].
      intros c h Hc Hh; apply Hmono; eauto.
    + split; [intros c o Hin; apply Hmono; eauto|].
      intros c h [Hc|(c1 & Hc & ->)]%elem_of_alter Hh; apply Hmono; eauto.
  - pose proof (settle_frame _ _ _ _ Hstep) as (Eh & _ & _ & _ & Er & _).
    split; [intros c o; rewrite Er; eauto|].
    intros c h. rewrite Eh. eauto.
  - apply step_resume_inv in Hstep as (t & r & o & w1 & Hi & Hr & Hc & ->).
    destruct (wf_tasks w Hwf t) as (_ & p & Hp & _).
    { apply list_elem_of_lookup; eauto. }
    rewrite Hp in Hr. pose proof (await_from_driver w p r Hr) as Hfd.
    apply resume_cases in Hc as [(v & -> & -> & -> & _)|(e & -> & -> & ->)].
    + split.
      * intros c o [Hin|Hin]%elem_of_app; [apply Hmono; eauto|].
        apply list_elem_of_singleton in Hin. inversion Hin; subst. by apply Hmono.
      * intros c h [Hc|(c1 & Hc & ->)]%elem_of_alter Hh; [apply Hmono; eauto|].
        simpl in Hh. subst v. by apply Hmono.
    + split.
      * intros c o [Hin|Hin]%elem_of_app; [apply Hmono; eauto|].
        apply list_elem_of_singleton in Hin. inversion Hin; subst. by apply Hmono.
      * intros c h [Hc|(c1 & Hc & ->)]%elem_of_alter Hh; apply Hmono; eauto.
Qed.

Lemma provenance_run (evs : list Event) (w w' : World) :
  wf w → run evs w = Some w' →
  (∀ c o, (c, o) ∈ returned w → from_driver w o) →
  (∀ c h, c ∈ heap w → conn c = Some h → from_driver w (Resolved (Some h))) →
  ∀ c o, (c, o) ∈ returned w' → from_driver w' o.
Proof.
  revert w. induction evs as [|ev evs IH]; simpl; intros w Hwf Hrun Hret Hheap.
  - by inversion Hrun; subst.
  - run_next Hrun w1 E.
    destruct (provenance_step ev w w1 Hwf E Hret Hheap) as [Hret1 Hheap1].
    eauto using wf_step.
Qed.

(** X9.  [connectDB] hands on what the driver delivered and nothing else:
    in every reachable process, a caller whose promise was rejected got an
    error with which the driver rejected one of its connects, and a caller
    whose promise was resolved got a handle, never null, with which the
    driver fulfilled one of its connects. *)
Theorem outcomes_come_from_driver (w : World) (caller : nat) (o : Outcome) :
  reachable w →
  (caller, o) ∈ returned w →
  from_driver w o.
Proof.
  intros Hr. destruct Hr as [evs Hrun].
  apply (provenance_run evs World0 w wf_World0 Hrun).
  - intros c o' Hin. by apply elem_of_nil in Hin.
  - intros c h Hin. by apply elem_of_nil in Hin.
Qed.

Lemma outcomes_come_from_driver_witness :
  from_driver world_stale (Threw "ECONNREFUSED"%string).
Proof.
  apply (outcomes_come_from_driver world_stale 0 (Threw "ECONNREFUSED"%string)).
  - exact world_stale_reachable.
  - by left.
Defined.

(** X10.  The [catch] of line 64 does not look at which promise the cache
    holds.  When an activation that awaited a rejected attempt is resumed
    while the cache already holds the pending promise [q] of a newer
    attempt, it still sets [cached.promise] to null; the next call then
    starts one more attempt although [q] is still pending, so two connect
    attempts are in flight and the cache no longer refers to [q]. *)
Theorem stale_failure_drops_newer_attempt
    (i j : nat) (w : World) (t : Task) (e : Error) (m : Module) (q : PromiseId) :
  tasks w !! i = Some t →
  await_result w (task_awaits t) = Some (inr e) →
  modules w !! j = Some m →
  cached m = task_cached t →
  heap w !! cached m = Some (mkCache None (Some q)) →
  promise_state w q = Some Pending →
  ∃ w1 w2, step (Resume i) w = Some w1 ∧ step (Call j) w1 = Some w2 ∧
    promise_at w1 (cached m) = Some None ∧
    connect_count w2 = S (connect_count w) ∧
    promise_at w2 (cached m) = Some (Some (connect_count w)) ∧
    q ≠ connect_count w ∧
    promise_state w2 q = Some Pending ∧
    promise_state w2 (connect_count w) = Some Pending.
Proof.
  intros Ht Hr Hj Hm Hc Hq.
  rewrite (resume_rejected i w t e Ht Hr). eexists.
  set (w1 := add_returned _ _).
  assert (Hc1 : heap w1 !! cached m = Some (mkCache None None)).
  { subst w1. change (heap (add_returned _ _))
      with (heap (set_promise (task_cached t) None w)).
    rewrite lookup_set_promise, decide_True by done. by rewrite Hc. }
  assert (Hj1 : modules w1 !! j = Some m) by done.
  rewrite (step_call_fresh j w1 m Hj1 Hc1). eexists.
  split; [reflexivity|]. split; [reflexivity|].
  assert (Hlt : q < length (driver w)).
  { unfold promise_state in Hq. destruct (driver w !! q) eqn:E; [|discriminate].
    by apply lookup_lt_Some in E. }
  split; [exact (f_equal (fmap promise) Hc1)|].
  split; [by unfold connect_count; simpl; rewrite length_app; simpl; lia|].
  split.
  { unfold promise_at.
    change (heap (set_tasks _ _)) with (heap (start_attempt m w1)).
    by rewrite (heap_start_attempt m w1 _ Hc1). }
  split; [unfold connect_count; lia|].
  unfold promise_state in *. simpl. split.
  - by rewrite lookup_app_l.
  - unfold connect_count. rewrite lookup_app_r by lia.
    by rewrite Nat.sub_diag.
Qed.

Lemma stale_failure_drops_newer_attempt_witness :
  ∃ w1 w2, step (Resume 0) world_stale = Some w1 ∧ step (Call 0) w1 = Some w2 ∧
    promise_at w1 0 = Some None ∧
    connect_count w2 = S (connect_count world_stale) ∧
    promise_at w2 0 = Some (Some (connect_count world_stale)) ∧
    1 ≠ connect_count world_stale ∧
    promise_state w2 1 = Some Pending ∧
    promise_state w2 (connect_count world_stale) = Some Pending.
Proof.
  apply (stale_failure_drops_newer_attempt 0 0 world_stale (mkTask 1 0 (Some 0))
           "ECONNREFUSED"%string (mkModule demo_uri 0) 1); reflexivity.
Defined.

(** X11.  In every reachable process each invocation of
    [mongoose.connect] ever made carried [bufferCommands: false] and a
    non-empty URI, namely the one read by a module instance that was
    successfully evaluated and is bound to the cache in [global.mongoose]. *)
Theorem every_connect_is_well_formed (w : World) (k : ConnectCall) :
  reachable w →
  k ∈ driver w →
  call_options k = mkOptions false ∧
  call_uri k ≠ ""%string ∧
  ∃ m, m ∈ modules w ∧ call_uri k = MONGODB_URI m ∧
       global_mongoose w = Some (cached m).
Proof.
  intros Hr Hk. pose proof (reachable_wf w Hr) as Hwf.
  destruct (wf_driver w Hwf k Hk) as (Ho & m & Hm & Hu).
  destruct (wf_modules w Hwf m Hm) as [Hg Hne].
  split; [done|]. split; [by rewrite Hu|]. eauto.
Qed.

Lemma every_connect_is_well_formed_witness :
  call_options (mkConnect demo_uri (mkOptions false) Pending) = mkOptions false ∧
  call_uri (mkConnect demo_uri (mkOptions false) Pending) ≠ ""%string ∧
  ∃ m, m ∈ modules world_stale ∧
       call_uri (mkConnect demo_uri (mkOptions false) Pending) = MONGODB_URI m ∧
       global_mongoose world_stale = Some (cached m).
Proof.
  apply (every_connect_is_well_formed world_stale
           (mkConnect demo_uri (mkOptions false) Pending)).
  - exact world_stale_reachable.
  - right. by left.
Defined.

(** X12.  No call is ever stuck.  In a well-formed process a call through
    a loaded module instance always runs to its [return] or [await]; and
    every suspended activation awaits a promise of the driver: while that
    promise is pending the driver can still settle it either way, and once
    it is settled the activation can be resumed, which removes it from the
    suspended ones and settles its caller's promise. *)
Theorem no_call_is_stuck (w : World) :
  wf w →
  (∀ j m, modules w !! j = Some m → is_Some (step (Call j) w)) ∧
  (∀ i t, tasks w !! i = Some t →
     ∃ p, task_awaits t = Some p ∧
       ((promise_state w p = Some Pending ∧ ∀ r, is_Some (step (Settle p r) w)) ∨
        (∃ w' o, step (Resume i) w = Some w' ∧
           tasks w' = delete i (tasks w) ∧
           returned w' = returned w ++ [(task_caller t, o)]))).
Proof.
  intros Hwf. split.
  - intros j m Hj.
    assert (Hin : m ∈ modules w) by (apply list_elem_of_lookup; eauto).
    destruct (wf_modules w Hwf m Hin) as [Hg _].
    pose proof (wf_global w Hwf _ Hg) as Hlt.
    apply lookup_lt_is_Some_2 in Hlt as [c Hc].
    unfold step. rewrite Hj. cbn [mbind option_bind].
    destruct (conn c) as [h|] eqn:Hh.
    + rewrite (call_connected m w c h Hc Hh). by eexists.
    + destruct (promise c) as [p|] eqn:Hp.
      * rewrite (call_pending m w c p Hc Hh Hp). by eexists.
      * rewrite (call_fresh m w c Hc Hh Hp). by eexists.
  - intros i t Ht.
    destruct (wf_tasks w Hwf t) as (Hlt & p & Hp & Hpl).
    { apply list_elem_of_lookup; eauto. }
    exists p. split; [done|].
    apply lookup_lt_is_Some_2 in Hpl as [[uri o s] Hk].
    apply lookup_lt_is_Some_2 in Hlt as [c Hc].
    destruct s as [|h|e].
    + left. split; [by unfold promise_state; rewrite Hk|].
      intros r. simpl. unfold driver_settle. rewrite Hk. by eexists.
    + right.
      assert (Hr : await_result w (task_awaits t) = Some (inl (Some h))).
      { rewrite Hp. simpl. unfold promise_state. by rewrite Hk. }
      rewrite (resume_fulfilled i w t (Some h) c Ht Hr Hc).
      eexists. eexists. split; [reflexivity|]. done.
    + right.
      assert (Hr : await_result w (task_awaits t) = Some (inr e)).
      { rewrite Hp. simpl. unfold promise_state. by rewrite Hk. }
      rewrite (resume_rejected i w t e Ht Hr).
      eexists. eexists. split; [reflexivity|]. done.
Qed.

Lemma no_call_is_stuck_witness :
  (∀ j m, modules world_stale !! j = Some m → is_Some (step (Call j) world_stale)) ∧
  (∀ i t, tasks world_stale !! i = Some t →
     ∃ p, task_awaits t = Some p ∧
       ((promise_state world_stale p = Some Pending ∧
         ∀ r, is_Some (step (Settle p r) world_stale)) ∨
        (∃ w' o, step (Resume i) world_stale = Some w' ∧
           tasks w' = delete i (tasks world_stale) ∧
           returned w' = returned world_stale ++ [(task_caller t, o)]))).
Proof.
  apply (no_call_is_stuck world_stale).
  exact (reachable_wf _ world_stale_reachable).
Defined.

(** X13.  As long as the driver rejects nothing, all callers share one
    connection: any two callers whose promises were resolved, at whatever
    time and through whichever module instance, received the identical
    handle, and it is not null. *)
Theorem one_handle_without_rejection
    (evs : list Event) (w : World) (c1 c2 : nat) (v1 v2 : option Handle) :
  forallb no_reject evs = true →
  run evs World0 = Some w →
  (c1, Resolved v1) ∈ returned w →
  (c2, Resolved v2) ∈ returned w →
  v1 = v2 ∧ ∃ h, v1 = Some h.
Proof.
  intros Hall Hrun H1 H2.
  assert (Hr : reachable w) by (by exists evs).
  assert (Hle : connect_count w ≤ 1).
  { apply (no_reject_run evs World0 w wf_World0 Hall Hrun).
    - intros k e Hk. by apply elem_of_nil in Hk.
    - by left. }
  assert (P1 : from_driver w (Resolved v1)).
  { apply (provenance_run evs World0 w wf_World0 Hrun) with (c := c1); [| |done].
    - intros c o' Hin. by apply elem_of_nil in Hin.
    - intros c h Hin. by apply elem_of_nil in Hin. }
  assert (P2 : from_driver w (Resolved v2)).
  { apply (provenance_run evs World0 w wf_World0 Hrun) with (c := c2); [| |done].
    - intros c o' Hin. by apply elem_of_nil in Hin.
    - intros c h Hin. by apply elem_of_nil in Hin. }
  destruct P1 as (h1 & -> & k1 & Hk1 & Hs1).
  destruct P2 as (h2 & -> & k2 & Hk2 & Hs2).
  split; [|eauto].
  unfold connect_count in Hle.
  destruct (driver w) as [|k [|k' ds]]; simpl in Hle; [by apply elem_of_nil in Hk1| |lia].
  apply list_elem_of_singleton in Hk1, Hk2. subst k1 k2. congruence.
Qed.

Lemma one_handle_without_rejection_witness :
  run shared_run World0 = Some world_shared ∧
  (1, Resolved (Some 7)) ∈ returned world_shared ∧
  (2, Resolved (Some 7)) ∈ returned world_shared ∧
  Some 7 = Some 7 ∧ ∃ h, Some 7 = Some h.
Proof.
  assert (Ha : (1, Resolved (Some 7)) ∈ returned world_shared) by (by left).
  assert (Hb : (2, Resolved (Some 7)) ∈ returned world_shared)
    by (right; right; by left).
  split; [vm_compute; reflexivity|]. split; [exact Ha|]. split; [exact Hb|].
  apply (one_handle_without_rejection shared_run world_shared 1 2 (Some 7) (Some 7)).
  - reflexivity.
  - vm_compute; reflexivity.
  - exact Ha.
  - exact Hb.
Defined.

(** * The cache across runs: connected for good, shared by reloads *)

Lemma global_stays_step (ev : Event) (w w' : World) (l : loc) :
  step ev w = Some w' → global_mongoose w = Some l → global_mongoose w' = Some l.
Proof.
  intros H Hg. destruct (step_heap_shape ev w w' H) as [[_ E]|(E & _)]; congruence.
Qed.

Lemma global_stays_run (evs : list Event) (w w' : World) (l : loc) :
  run evs w = Some w' → global_mongoose w = Some l → global_mongoose w' = Some l.
Proof.
  revert w. induction evs as [|ev evs IH]; simpl; intros w Hrun Hg.
  - by inversion Hrun; subst.
  - run_next Hrun w1 E. eauto using global_stays_step.
Qed.

Lemma connected_step_no_connect (ev : Event) (w w' : World) (l : loc) (h : Handle) :
  wf w → global_mongoose w = Some l → conn_at w l = Some (Some h) →
  step ev w = Some w' → connect_count w' = connect_count w.
Proof.
  intros Hwf Hg Hc Hstep.
  destruct (step_connect_count ev w w' Hstep) as [E|[Hev E]]; [done|].
  destruct ev as [env|j|q r|i]; try discriminate.
  unfold conn_at in Hc.
  destruct (heap w !! l) as [c|] eqn:Hl; [|discriminate].
  simpl in Hc. assert (Hh : conn c = Some h) by congruence.
  destruct (modules w !! j) as [m|] eqn:Hj; [|by simpl in Hstep; rewrite Hj in Hstep].
  assert (Hin : m ∈ modules w) by (apply list_elem_of_lookup; eauto).
  destruct (wf_modules w Hwf m Hin) as [Hgm _].
  assert (cached m = l) as Hml by congruence.
  rewrite (step_call_connected j w m c h Hj) in Hstep by (by rewrite ?Hml).
  by inversion Hstep; subst.
Qed.

Lemma connected_run_no_connect (evs : list Event) (w w' : World) (l : loc) (h : Handle) :
  wf w → global_mongoose w = Some l → conn_at w l = Some (Some h) →
  run evs w = Some w' →
  connect_count w' = connect_count w ∧ ∃ h', conn_at w' l = Some (Some h').
Proof.
  revert w h. induction evs as [|ev evs IH]; simpl; intros w h Hwf Hg Hc Hrun.
  - inversion Hrun; subst. eauto.
  - run_next Hrun w1 E.
    destruct (conn_stays_connected ev w w1 l h Hwf E Hc) as [h1 Hc1].
    rewrite <- (connected_step_no_connect ev w w1 l h Hwf Hg Hc E).
    apply (IH w1 h1); eauto using wf_step, global_stays_step.
Qed.


(** C1.  That N concurrent calls issued before any of them resolves make
    one invocation of [mongoose.connect] does not hold on this run.
    [stale_prefix] leaves the cache empty (no handle, no promise) with one
    earlier caller still suspended on the rejected first attempt.  In
    [stale_window] two callers arrive and neither is resumed; between them
    the [catch] of the earlier caller resets [cached.promise], which by
    then holds the promise of the first of the two.  [mongoose.connect] is
    invoked twice, the two callers await different promises, both pending,
    and the cache refers to the second only. *)
Theorem stale_catch_splits_concurrent_calls :
  ∃ w0 w1,
    run stale_prefix World0 = Some w0 ∧
    heap w0 !! 0 = Some (mkCache None None) ∧
    stale_window = [Call 0; Resume 0; Call 0] ∧
    run stale_window w0 = Some w1 ∧
    returned w1 = returned w0 ++ [(1, Threw "ECONNREFUSED"%string)] ∧
    tasks w1 = [mkTask 2 0 (Some 1); mkTask 3 0 (Some 2)] ∧
    connect_count w1 = connect_count w0 + 2 ∧
    promise_state w1 1 = Some Pending ∧
    promise_state w1 2 = Some Pending ∧
    promise_at w1 0 = Some (Some 2).
Proof.
  eexists. eexists.
  split; [vm_compute; reflexivity|].
  split; [reflexivity|].
  split; [reflexivity|].
  split; [vm_compute; reflexivity|].
  done.
Qed.

Lemma world_two_attempts_reachable : reachable world_two_attempts.
Proof.
  exists (stale_waiter_calls ++ take 2 stale_waiter_settles).
  vm_compute; reflexivity.
Qed.

(** C2.  The driver resolves every connect with the one mongoose
    instance [h].  Once that handle is cached, for the rest of the process
    and under every schedule (continuations of earlier callers, failed
    attempts still to be caught, module re-evaluations): [cached.conn]
    stays [h], [mongoose.connect] is never invoked again, and every call
    of [connectDB], through any module instance, returns [h] at once and
    changes neither the cache, nor the driver's log, nor the suspended
    activations. *)
Theorem cached_handle_is_reused
    (evs : list Event) (w w' : World) (l : loc) (h : Handle) :
  wf w →
  global_mongoose w = Some l →
  conn_at w l = Some (Some h) →
  resolves_with h w →
  Forall (settles_with h) evs →
  run evs w = Some w' →
  conn_at w' l = Some (Some h) ∧
  connect_count w' = connect_count w ∧
  ∀ j m, modules w' !! j = Some m →
    ∃ w'', step (Call j) w' = Some w'' ∧
      returned w'' = returned w' ++ [(issued w', Resolved (Some h))] ∧
      heap w'' = heap w' ∧ driver w'' = driver w' ∧ tasks w'' = tasks w'.
Proof.
  intros Hwf Hg Hc Hres Hall Hrun.
  pose proof (one_instance_run evs w w' l h Hwf Hres Hall Hrun Hc) as Hc'.
  destruct (connected_run_no_connect evs w w' l h Hwf Hg Hc Hrun) as [Hn _].
  split; [done|]. split; [done|].
  intros j m Hj.
  pose proof (wf_run evs w w' Hwf Hrun) as Hwf'.
  pose proof (global_stays_run evs w w' l Hrun Hg) as Hg'.
  assert (Hin : m ∈ modules w') by (apply list_elem_of_lookup; eauto).
  destruct (wf_modules w' Hwf' m Hin) as [Hgm _].
  assert (cached m = l) as Hml by congruence.
  apply (connected_call_returns_cached j w' m h Hj). by rewrite Hml.
Qed.

Lemma cached_handle_is_reused_witness :
  ∃ w', run [Import (Some replica_uri); Settle 2 (inl 7); Call 1; Resume 0; Call 0]
          world_two_attempts = Some w' ∧
    conn_at w' 0 = Some (Some 7) ∧
    connect_count w' = connect_count world_two_attempts ∧
    ∀ j m, modules w' !! j = Some m →
      ∃ w'', step (Call j) w' = Some w'' ∧
        returned w'' = returned w' ++ [(issued w', Resolved (Some 7))] ∧
        heap w'' = heap w' ∧ driver w'' = driver w' ∧ tasks w'' = tasks w'.
Proof.
  eexists. split; [vm_compute; reflexivity|].
  apply (cached_handle_is_reused
           [Import (Some replica_uri); Settle 2 (inl 7); Call 1; Resume 0; Call 0]
           world_two_attempts _ 0 7).
  - exact (reachable_wf _ world_two_attempts_reachable).
  - reflexivity.
  - reflexivity.
  - intros k v Hk Hv.
    apply elem_of_cons in Hk as [->|Hk]; [discriminate|].
    apply elem_of_cons in Hk as [->|Hk]; [simpl in Hv; congruence|].
    apply list_elem_of_singleton in Hk as ->. discriminate.
  - repeat constructor; intros p v Hev; inversion Hev; reflexivity.
  - vm_compute; reflexivity.
Defined.


